(** * Khmer transliteration service: the inference engine and its orchestrator

    A shallow embedding of
    - [backend/utils/model_loader.py]  (class [ModelLoader]: [_pad_sequences],
      [clean_text], [initialize], [predict_khmer_with_confidence]) and
    - [backend/services/translation.py] (class [TranslationService]:
      [translate_single_word], [translate_text], [save_prediction],
      [get_recent_predictions]),
    - [backend/utils/data_preprocessing.py] (class [DataPreprocessor]),
    - [backend/core/security.py] ([sanitize_user_input]) and
    - [backend/database/connection.py] (class [Database]: [initialize_pool],
      [get_pool], [get_connection], [return_connection], [execute_query]),
    followed by the properties of the padding utility, the greedy decoder,
    the orchestrator, the text utilities and the database layer.

    Conventions of the embedding.
    - A Python [str] is the list of its Unicode code points ([list N]).
    - A Python [int] is a [Z]; a length ([maxlen], [max_eng_len],
      [max_khm_len], a [len(...)]) is a [nat], so a negative [maxlen], on
      which [np.zeros] raises, is outside the model.  Token indices are
      vocabulary indices and are assumed to fit the [np.int32] cells they
      are stored in.
    - A Python [float] is an exact rational ([Q]): the probabilities and the
      confidences are computed without rounding error, and [round(x, 2)] is
      rounding to the nearest multiple of 1/100, ties to even.
    - A [dict] is a [gmap].
    - An exception is a value [Raise e] of the type [Exc]; [try ... except
      Exception] is [try_except].
    - The database driver is a record [Driver] of calls on an abstract
      server state, each of which may raise; a run of the database layer
      records the calls it makes with their outcomes.  Logging is not
      modelled. *)

From Stdlib Require Import QArith Qround Lqa.
From stdpp Require Import base list gmap strings pretty.

Abbreviation str := (list N).

(** ** Strings *)

(** The code points of an ASCII literal. *)
Definition lit (s : string) : str :=
  Ascii.N_of_ascii <$> String.list_ascii_of_string s.

(** [str.isspace] on one code point ([Py_UNICODE_ISSPACE]); the class [\s] of
    [re] on a [str] pattern is the same set. *)
Definition py_isspace (c : N) : bool :=
  ((9 <=? c) && (c <=? 13) || (28 <=? c) && (c <=? 32)
   || (c =? 133) || (c =? 160) || (c =? 5760)
   || (8192 <=? c) && (c <=? 8202)
   || (c =? 8232) || (c =? 8233) || (c =? 8239) || (c =? 8287)
   || (c =? 12288))%N.

Fixpoint drop_while {A} (p : A → bool) (l : list A) : list A :=
  match l with
  | [] => []
  | x :: l' => if p x then drop_while p l' else l
  end.

(** [s.strip()] *)
Definition py_strip (s : str) : str :=
  reverse (drop_while py_isspace (reverse (drop_while py_isspace s))).

(** [s.split()]: the maximal runs of non-whitespace code points, in order.
    [cur] is the run being read, most recent code point first. *)
Fixpoint split_from (cur : str) (s : str) : list str :=
  match s with
  | [] => if decide (cur = []) then [] else [reverse cur]
  | c :: s' =>
      if py_isspace c
      then (if decide (cur = []) then split_from [] s'
            else reverse cur :: split_from [] s')
      else split_from (c :: cur) s'
  end.

Definition py_split (s : str) : list str := split_from [] s.

(** [''.join(parts)] *)
Definition py_join (parts : list str) : str := concat parts.

(** [s.isspace()]: at least one code point, and all of them whitespace. *)
Definition str_isspace (s : str) : bool :=
  bool_decide (s ≠ []) && forallb py_isspace s.

(** [f"[{w}]"] *)
Definition bracket (w : str) : str := lit "[" ++ w ++ lit "]".

(** ** Exceptions *)

Inductive exn : Type :=
  | ValueError
  | IndexError
  | FileNotFoundError
  | AttributeError
  | OtherError (tag : nat).

Inductive Exc (A : Type) : Type :=
  | Ok (a : A)
  | Raise (e : exn).
Arguments Ok {A} a.
Arguments Raise {A} e.

#[global] Instance Exc_ret : MRet Exc := λ A a, Ok a.
#[global] Instance Exc_bind : MBind Exc := λ A B f m,
  match m with
  | Ok a => f a
  | Raise e => Raise e
  end.

(** ** Python slices and numpy slice assignment *)

(** A slice bound [i] against a sequence of length [len]: a negative bound
    counts from the end, and the result is clamped to [0 .. len]. *)
Definition slice_index (i : Z) (len : nat) : nat :=
  if decide (i < 0)%Z then Z.to_nat (Z.max 0 (i + Z.of_nat len))
  else Z.to_nat (Z.min i (Z.of_nat len)).

Definition slice_lo (len : nat) (start : option Z) : nat :=
  from_option (λ i, slice_index i len) 0 start.

Definition slice_hi (len : nat) (stop : option Z) : nat :=
  from_option (λ i, slice_index i len) len stop.

(** [l[start:stop]]; [None] is an omitted bound. *)
Definition py_slice {A} (l : list A) (start stop : option Z) : list A :=
  let lo := slice_lo (length l) start in
  let hi := slice_hi (length l) stop in
  take (hi - lo) (drop lo l).

(** numpy broadcasting of a one-dimensional value into [n] cells: the value
    has [n] elements, or one element that is repeated; anything else is
    "could not broadcast input array". *)
Definition np_broadcast (n : nat) (value : list Z) : Exc (list Z) :=
  if decide (length value = n) then Ok value
  else match value with
       | [x] => Ok (replicate n x)
       | _ => Raise ValueError
       end.

(** [row[start:stop] = value] on a one-dimensional array. *)
Definition np_setslice (row : list Z) (start stop : option Z)
    (value : list Z) : Exc (list Z) :=
  let lo := slice_lo (length row) start in
  let hi := slice_hi (length row) stop in
  v ← np_broadcast (hi - lo) value;
  Ok (take lo row ++ v ++ drop (lo + (hi - lo)) row).

(** ** [ModelLoader._pad_sequences] *)

(** [np.zeros((rows, cols), dtype=np.int32)], as the list of its rows. *)
Definition np_zeros (rows cols : nat) : list (list Z) :=
  replicate rows (replicate cols 0%Z).

(** Lines 80-89: the assignment into [row], the view [padded[i]] of row [i]. *)
Definition pad_assign (maxlen : nat) (padding : str) (row seq : list Z)
    : Exc (list Z) :=
  if decide (maxlen < length seq) then
    if decide (padding = lit "post")
    then np_setslice row None None (py_slice seq None (Some (Z.of_nat maxlen)))
    else np_setslice row None None (py_slice seq (Some (- Z.of_nat maxlen)%Z) None)
  else
    if decide (padding = lit "post")
    then np_setslice row None (Some (Z.of_nat (length seq))) seq
    else np_setslice row (Some (- Z.of_nat (length seq))%Z) None seq.

(** The body of the loop [for i, seq in enumerate(sequences)]: the assignment
    writes row [i] of [padded] in place. *)
Definition pad_body (maxlen : nat) (padding : str) (padded : list (list Z))
    (i : nat) (seq : list Z) : Exc (list (list Z)) :=
  let row := default [] (padded !! i) in
  row' ← pad_assign maxlen padding row seq;
  Ok (<[i := row']> padded).

Fixpoint pad_loop (maxlen : nat) (padding : str) (padded : list (list Z))
    (i : nat) (sequences : list (list Z)) : Exc (list (list Z)) :=
  match sequences with
  | [] => Ok padded
  | seq :: rest =>
      padded' ← pad_body maxlen padding padded i seq;
      pad_loop maxlen padding padded' (S i) rest
  end.

Definition _pad_sequences (sequences : list (list Z)) (maxlen : nat)
    (padding : str) : Exc (list (list Z)) :=
  pad_loop maxlen padding (np_zeros (length sequences) maxlen) 0 sequences.

(** ** Text normalisation: the character classes *)

Definition is_lower_ascii (c : N) : bool := ((97 <=? c) && (c <=? 122))%N.

(** [re.sub(r'[^a-z\s]', '', text)] *)
Definition keep_letters_and_space (text : str) : str :=
  filter (λ c, is_lower_ascii c || py_isspace c) text.

(** ** Floats as exact rationals *)

(** The nearest integer, ties to even. *)
Definition round_half_even (x : Q) : Z :=
  let f := Qfloor x in
  match (x - inject_Z f ?= 1 # 2)%Q with
  | Lt => f
  | Gt => (f + 1)%Z
  | Eq => if Z.even f then f else (f + 1)%Z
  end.

(** [round(x, 2)], in lowest terms. *)
Definition round2 (x : Q) : Q := Qred (round_half_even (x * 100) # 100).

Definition Qsum (xs : list Q) : Q := foldr Qplus 0%Q xs.

(** [np.mean(xs)] *)
Definition np_mean (xs : list Q) : Q :=
  (Qsum xs / inject_Z (Z.of_nat (length xs)))%Q.

(** ** The model output *)

(** A three-dimensional float array (batch, time, vocabulary). *)
Record ndarray3 : Type := {
  shape0 : nat;
  shape1 : nat;
  shape2 : nat;
  item : nat → nat → nat → Q
}.

(** An index [i] along an axis of [n] cells: a negative index counts from the
    end, and an index outside the axis is an [IndexError]. *)
Definition np_axis_index (i : Z) (n : nat) : Exc nat :=
  if decide (0 ≤ i < Z.of_nat n)%Z then Ok (Z.to_nat i)
  else if decide (- Z.of_nat n ≤ i < 0)%Z then Ok (Z.to_nat (i + Z.of_nat n))
  else Raise IndexError.

(** [a[i, j]]: the vector along the last axis. *)
Definition np_index2 (a : ndarray3) (i j : Z) : Exc (list Q) :=
  i' ← np_axis_index i (shape0 a);
  j' ← np_axis_index j (shape1 a);
  Ok (item a i' j' <$> seq 0 (shape2 a)).

Fixpoint argmax_from (best : nat) (best_val : Q) (i : nat) (xs : list Q) : nat :=
  match xs with
  | [] => best
  | x :: xs' =>
      if Qle_bool x best_val then argmax_from best best_val (S i) xs'
      else argmax_from i x (S i) xs'
  end.

(** [np.argmax(xs)]: the first index of a largest element. *)
Definition np_argmax (xs : list Q) : Exc nat :=
  match xs with
  | [] => Raise ValueError
  | x :: xs' => Ok (argmax_from 0 x 1 xs')
  end.

(** ** What [initialize] loads *)

(** A Keras [Tokenizer]. *)
Record Tokenizer : Type := {
  word_index : gmap (list N) Z;
  index_word : gmap Z (list N);
  texts_to_sequences : list (list N) → Exc (list (list Z))
}.

(** The attributes set by [initialize]; [model_predict enc dec] is
    [self.model.predict([enc, dec], verbose=0)], whose result is taken to be a
    (batch, time, vocabulary) array. *)
Record Assets : Type := {
  model_predict : list (list Z) → list (list Z) → Exc ndarray3;
  eng_tokenizer : Tokenizer;
  khm_tokenizer : Tokenizer;
  max_eng_len : nat;
  max_khm_len : nat
}.

(** What the program takes from outside: Python's Unicode lowercasing
    ([str.lower], a table of the interpreter) and the artifacts on disk, that
    is, what [initialize] finds when it loads them. *)
Record Env : Type := {
  str_lower : list N → list N;
  artifacts : Exc Assets
}.

(** [ModelLoader.clean_text] *)
Definition clean_text (env : Env) (text : str) (is_khmer : bool) : str :=
  let text := py_strip (str_lower env text) in
  if negb is_khmer then keep_letters_and_space text else text.

(** ** Observable events and the two effect layers *)

Inductive event : Type :=
  | EvEngine (eng_input : list N)          (* the engine is asked to decode *)
  | EvInitialize                           (* the artifacts are loaded *)
  | EvForward (enc_padded dec_padded : list (list Z)). (* one forward pass *)

(** A computation that may raise and that records the events it performs. *)
Definition W (A : Type) : Type := (Exc A * list event)%type.

#[global] Instance W_ret : MRet W := λ A a, (Ok a, []).
#[global] Instance W_bind : MBind W := λ A B f m,
  match m.1 with
  | Ok a => let r := f a in (r.1, m.2 ++ r.2)
  | Raise e => (Raise e, m.2)
  end.

Definition lift {A} (x : Exc A) : W A := (x, []).
Definition tell (ev : event) : W unit := (Ok tt, [ev]).

(** [try: body  except Exception as e: handler e] *)
Definition try_except {A} (body : W A) (handler : exn → W A) : W A :=
  match body.1 with
  | Ok a => body
  | Raise e => let r := handler e in (r.1, body.2 ++ r.2)
  end.

(** ** [ModelLoader.predict_khmer_with_confidence]: the [try] block *)

(** Lines 117-126: the character-by-character encoding. *)
Definition encode_chars (wi : gmap (list N) Z) (chars : str) : list Z :=
  (λ char, match wi !! [char] with
           | Some idx => idx
           | None => if decide (char = 32%N) then 1%Z else 0%Z
           end) <$> chars.

Inductive flow : Type := Continue | Break.

(** The model's forward pass, recorded. *)
Definition forward (a : Assets) (enc_padded dec_padded : list (list Z)) : W ndarray3 :=
  _ ← tell (EvForward enc_padded dec_padded);
  lift (model_predict a enc_padded dec_padded).

(** Lines 142-157: one iteration of the greedy loop at step [t]. *)
Definition greedy_body (a : Assets) (enc_padded : list (list Z)) (end_idx : Z)
    (t : nat) (st : list Z * list Q) : W (flow * (list Z * list Q)) :=
  let '(decoder_seq, confidences) := st in
  dec_padded ← lift (_pad_sequences [decoder_seq] (max_khm_len a + 1) (lit "post"));
  preds ← forward a enc_padded dec_padded;
  let time_index := (Z.of_nat (length decoder_seq) - 1)%Z in
  if decide (Z.of_nat (shape1 preds) ≤ time_index)%Z then mret (Break, st)
  else
    probs ← lift (np_index2 preds 0 time_index);
    next ← lift (np_argmax probs);
    let next_token := Z.of_nat next in
    let confidence := default 0%Q (probs !! next) in
    let st' := (decoder_seq ++ [next_token], confidences ++ [confidence]) in
    if decide (next_token = end_idx ∨ t = max_khm_len a + 9)
    then mret (Break, st')
    else mret (Continue, st').

(** [for t in range(n)], started at [t], with [break]. *)
Fixpoint for_range {St} (n t : nat) (body : nat → St → W (flow * St))
    (st : St) : W St :=
  match n with
  | 0 => mret st
  | S n' =>
      r ← body t st;
      match r.1 with
      | Break => mret r.2
      | Continue => for_range n' (S t) body r.2
      end
  end.

Definition greedy_loop (a : Assets) (enc_padded : list (list Z))
    (start_idx end_idx : Z) : W (list Z * list Q) :=
  for_range (max_khm_len a + 10) 0 (greedy_body a enc_padded end_idx) ([start_idx], []).

(** Lines 160-165: the loop that collects the decoded characters. *)
Fixpoint decode_loop (iw : gmap Z (list N)) (end_idx : Z) (idxs : list Z)
    (decoded_chars : list str) : list str :=
  match idxs with
  | [] => decoded_chars
  | idx :: rest =>
      if decide (idx = end_idx) then decoded_chars
      else decode_loop iw end_idx rest (decoded_chars ++ [default [] (iw !! idx)])
  end.

(** Lines 159-175: from the decoder sequence to the returned pair. *)
Definition finish (a : Assets) (eng_input : str) (end_idx : Z)
    (decoder_seq : list Z) (confidences : list Q) : str * Q :=
  let decoded_chars :=
    decode_loop (index_word (khm_tokenizer a)) end_idx (drop 1 decoder_seq) [] in
  let result := py_join decoded_chars in
  let avg_conf :=
    if decide (confidences = []) then 0%Q else (np_mean confidences * 100)%Q in
  let '(result, avg_conf) :=
    if bool_decide (result = []) || str_isspace result
    then (bracket eng_input, 0%Q)
    else (result, avg_conf) in
  (result, round2 avg_conf).

(** Lines 112-175: the body of the [try]. *)
Definition encode_decode (a : Assets) (eng_input cleaned : str) : W (str * Q) :=
  enc_seq ← lift (texts_to_sequences (eng_tokenizer a) [cleaned]);
  let enc_seq :=
    if decide (enc_seq = [] ∨ length (default [] (enc_seq !! 0)) = 0)
    then [encode_chars (word_index (eng_tokenizer a)) cleaned]
    else enc_seq in
  enc_padded ← lift (_pad_sequences enc_seq (max_eng_len a) (lit "post"));
  let start_idx := word_index (khm_tokenizer a) !! [9%N] in
  let end_idx := word_index (khm_tokenizer a) !! [10%N] in
  match start_idx, end_idx with
  | Some start_idx, Some end_idx =>
      r ← greedy_loop a enc_padded start_idx end_idx;
      mret (finish a eng_input end_idx r.1 r.2)
  | _, _ => mret (bracket eng_input, 0%Q)
  end.

(** ** The loader singleton *)

(** [self._initialized] and, once it is set, the attributes. *)
Inductive ModelLoader : Type :=
  | Uninitialized
  | Ready (a : Assets).

Definition _initialized (self : ModelLoader) : bool :=
  match self with
  | Uninitialized => false
  | Ready _ => true
  end.

(** Reading [self.model], [self.eng_tokenizer], ... *)
Definition attributes (self : ModelLoader) : Exc Assets :=
  match self with
  | Uninitialized => Raise AttributeError
  | Ready a => Ok a
  end.

(** A computation on the singleton: it may raise, records its events and
    may change the loader. *)
Definition M (A : Type) : Type := ModelLoader → W A * ModelLoader.

#[global] Instance M_ret : MRet M := λ A a self, ((Ok a, []), self).
#[global] Instance M_bind : MBind M := λ A B f m self,
  let r := m self in
  match r.1.1 with
  | Ok a => let r' := f a r.2 in ((r'.1.1, r.1.2 ++ r'.1.2), r'.2)
  | Raise e => ((Raise e, r.1.2), r.2)
  end.

Definition liftW {A} (w : W A) : M A := λ self, (w, self).
Definition get_self : M ModelLoader := λ self, ((Ok self, []), self).

Definition try_except_M {A} (body : M A) (handler : exn → M A) : M A := λ self,
  let r := body self in
  match r.1.1 with
  | Ok _ => r
  | Raise e => let r' := handler e r.2 in ((r'.1.1, r.1.2 ++ r'.1.2), r'.2)
  end.

(** [ModelLoader.initialize] *)
Definition initialize (env : Env) : M unit := λ self,
  if _initialized self then ((Ok tt, []), self)
  else match artifacts env with
       | Ok a => ((Ok tt, [EvInitialize]), Ready a)
       | Raise e => ((Raise e, [EvInitialize]), self)
       end.

(** [ModelLoader.predict_khmer_with_confidence] *)
Definition predict_khmer_with_confidence (env : Env) (eng_input : str) : M (str * Q) :=
  _ ← liftW (tell (EvEngine eng_input));
  self ← get_self;
  _ ← (if _initialized self then mret tt else initialize env);
  self ← get_self;
  let cleaned := clean_text env eng_input false in
  if decide (length cleaned = 0) then mret ([], 0%Q)
  else liftW (try_except
                (a ← lift (attributes self); encode_decode a eng_input cleaned)
                (λ e, mret (bracket eng_input, 0%Q))).

(** ** [TranslationService] *)

Definition translate_single_word (env : Env) (word : str) : M (str * Q) :=
  try_except_M (predict_khmer_with_confidence env word)
               (λ e, mret (bracket word, 0%Q)).

(** An entry of [word_translations]. *)
Record WordTranslation : Type := {
  wt_input : list N;
  wt_translation : list N;
  wt_confidence : Q
}.

(** The dictionary returned by [translate_text]. *)
Record Translation : Type := {
  input_text : list N;
  translation : list N;
  word_translations : list WordTranslation;
  average_confidence : Q;
  word_count : nat
}.

(** Lines 50-59: the loop over the words, on [results] and
    [total_confidence]. *)
Fixpoint translate_loop (env : Env) (words : list str)
    (results : list WordTranslation) (total_confidence : Q)
    : M (list WordTranslation * Q) :=
  match words with
  | [] => mret (results, total_confidence)
  | word :: rest =>
      r ← translate_single_word env word;
      translate_loop env rest
        (results ++ [{| wt_input := word; wt_translation := r.1;
                        wt_confidence := r.2 |}])
        (total_confidence + r.2)%Q
  end.

Definition translate_text (env : Env) (text : str) : M Translation :=
  let words := py_split text in
  if decide (words = []) then
    mret {| input_text := text; translation := []; word_translations := [];
            average_confidence := 0%Q; word_count := 0 |}
  else
    r ← translate_loop env words [] 0%Q;
    let '(results, total_confidence) := r in
    let full_translation := py_join (wt_translation <$> results) in
    let avg_confidence :=
      if decide (results = []) then 0%Q
      else (total_confidence / inject_Z (Z.of_nat (length results)))%Q in
    mret {| input_text := text; translation := full_translation;
            word_translations := results;
            average_confidence := round2 avg_confidence;
            word_count := length words |}.

(** ** A small engine to run the definitions on *)

(** [str.lower] on ASCII text. *)
Definition ascii_lower (s : str) : str :=
  (λ c, if ((65 <=? c) && (c <=? 90))%N then (c + 32)%N else c) <$> s.

(** A target vocabulary with start token 1, end token 2 and two letters. *)
Definition toy_khm : Tokenizer :=
  {| word_index := {[ [9%N] := 1%Z; [10%N] := 2%Z; [6016%N] := 3%Z; [6017%N] := 4%Z ]};
     index_word := {[ 1%Z := [9%N]; 2%Z := [10%N]; 3%Z := [6016%N]; 4%Z := [6017%N] ]};
     texts_to_sequences := λ _, Ok [[]] |}.

(** A source vocabulary of the letters a and b; no word-level entries. *)
Definition toy_eng : Tokenizer :=
  {| word_index := {[ lit "a" := 2%Z; lit "b" := 3%Z ]};
     index_word := {[ 2%Z := lit "a"; 3%Z := lit "b" ]};
     texts_to_sequences := λ _, Ok [[]] |}.

(** A model that answers letter 3, then letter 4, then the end token. *)
Definition toy_preds : ndarray3 :=
  {| shape0 := 1; shape1 := 4; shape2 := 5;
     item := λ _ t k,
       match t, k with
       | 0, 3 => (9 # 10)%Q
       | 0, 0 => (1 # 10)%Q
       | 1, 4 => (4 # 5)%Q
       | 1, 0 => (1 # 5)%Q
       | 2, 2 => 1%Q
       | S (S (S _)), 0 => 1%Q
       | _, _ => 0%Q
       end |}.

Definition toy_assets : Assets :=
  {| model_predict := λ _ _, Ok toy_preds;
     eng_tokenizer := toy_eng; khm_tokenizer := toy_khm;
     max_eng_len := 4; max_khm_len := 3 |}.

Definition toy_env : Env :=
  {| str_lower := ascii_lower; artifacts := Ok toy_assets |}.

(** ** The padding utility as the specification words it *)

(** Back alignment keeps the first [max_length] elements and fills the tail
    with zeros; front alignment keeps the last [max_length] elements and
    fills the head. *)
Definition pad_spec (seq : list Z) (max_length : nat) (back : bool) : list Z :=
  if back
  then take max_length seq ++ replicate (max_length - length seq) 0%Z
  else replicate (max_length - length seq) 0%Z ++ drop (length seq - max_length) seq.


(** ** The decoded string as the specification words it *)

(** The sequence up to, and without, the first end token. *)
Fixpoint until_end (end_idx : Z) (idxs : list Z) : list Z :=
  match idxs with
  | [] => []
  | idx :: rest => if decide (idx = end_idx) then [] else idx :: until_end end_idx rest
  end.

(** Skip the start token, stop before the end token, map every index through
    the target vocabulary (nothing for an unmapped index), concatenate. *)
Definition decoded_spec (iw : gmap Z (list N)) (end_idx : Z) (decoder_seq : list Z) : str :=
  concat ((λ idx, default [] (iw !! idx)) <$> until_end end_idx (drop 1 decoder_seq)).

(** ** Observations used in the statements *)

Definition is_forward (ev : event) : bool :=
  match ev with
  | EvForward _ _ => true
  | _ => false
  end.

(** The number of forward passes among the events. *)
Definition forward_passes (evs : list event) : nat := length (filter is_forward evs).

Definition is_engine_call (ev : event) : bool :=
  match ev with
  | EvEngine _ => true
  | _ => false
  end.

(** The number of calls of the engine among the events. *)
Definition engine_calls (evs : list event) : nat := length (filter is_engine_call evs).

(** The attributes the engine decodes with from the loader state [self]: the
    ones it holds, or the ones its lazy initialisation will load. *)
Definition engine_assets (env : Env) (self : ModelLoader) : option Assets :=
  match self with
  | Ready a => Some a
  | Uninitialized =>
      match artifacts env with
      | Ok a => Some a
      | Raise _ => None
      end
  end.

(** The pair that [translate_single_word] returns for [word]. *)
Definition single_word_decode (env : Env) (self : ModelLoader) (word : str) : str * Q :=
  match (translate_single_word env word self).1.1 with
  | Ok out => out
  | Raise _ => (bracket word, 0%Q)
  end.


(** The [try] block of a READY engine with its handler. *)
Definition guarded (a : Assets) (eng_input cleaned : str) : W (str * Q) :=
  try_except (encode_decode a eng_input cleaned) (λ _, mret (bracket eng_input, 0%Q)).

(** The pair decoded with the attributes [oa] (none: the artifacts do not
    load). *)
Definition decode_with (env : Env) (oa : option Assets) (word : str) : str * Q :=
  match oa with
  | None => (bracket word, 0%Q)
  | Some a =>
      if decide (length (clean_text env word false) = 0) then ([], 0%Q)
      else match (guarded a word (clean_text env word false)).1 with
           | Ok out => out
           | Raise _ => (bracket word, 0%Q)
           end
  end.

(** The entry of [word_translations] for a decoded word. *)
Definition word_entry (word : str) (out : str * Q) : WordTranslation :=
  {| wt_input := word; wt_translation := out.1; wt_confidence := out.2 |}.


(** ** Further engines to run the definitions on *)


(** A target vocabulary without the start token. *)
Definition no_start_khm : Tokenizer :=
  {| word_index := {[ [10%N] := 2%Z; [6016%N] := 3%Z ]};
     index_word := {[ 2%Z := [10%N]; 3%Z := [6016%N] ]};
     texts_to_sequences := λ _, Ok [[]] |}.

Definition no_start_assets : Assets :=
  {| model_predict := λ _ _, Ok toy_preds;
     eng_tokenizer := toy_eng; khm_tokenizer := no_start_khm;
     max_eng_len := 4; max_khm_len := 3 |}.



(** An engine whose artifacts are missing. *)
Definition missing_env : Env :=
  {| str_lower := ascii_lower; artifacts := Raise FileNotFoundError |}.

(** ** [DataPreprocessor] ([backend/utils/data_preprocessing.py]) *)

(** The Khmer block, U+1780 to U+17FF. *)
Definition is_khmer_block (c : N) : bool := ((6016 <=? c) && (c <=? 6143))%N.

(** [DataPreprocessor.clean_input] *)
Definition clean_input (env : Env) (text : str) (is_khmer : bool) : str :=
  let text := py_strip (str_lower env text) in
  if negb is_khmer then keep_letters_and_space text
  else filter (λ c, is_khmer_block c || py_isspace c) text.

(** [DataPreprocessor.split_into_words]: the words of [text.split()] that
    are truthy. *)
Definition split_into_words (text : str) : list str :=
  filter (λ word, word ≠ []) (py_split text).

(** The class [[a-zA-Z]]. *)
Definition is_ascii_letter (c : N) : bool :=
  is_lower_ascii c || ((65 <=? c) && (c <=? 90))%N.

(** [str(n)] of an [int]. *)
Definition py_str_int (n : Z) : str := lit (pretty n).

(** [DataPreprocessor.validate_input] *)
Definition validate_input (text : str) (max_length : Z) : bool * str :=
  if bool_decide (text = []) || bool_decide (py_strip text = []) then
    (false, lit "Input cannot be empty")
  else if decide (max_length < Z.of_nat (length text))%Z then
    (false, lit "Input too long. Maximum " ++ py_str_int max_length
            ++ lit " characters allowed.")
  else if negb (existsb is_ascii_letter text) then
    (false, lit "Input should contain English characters")
  else (true, []).

(** ** [SecurityManager.sanitize_user_input] ([backend/core/security.py]) *)

(** [html.escape(text)], with its default [quote=True]. *)
Definition html_escape_char (c : N) : str :=
  if decide (c = 38%N) then lit "&amp;"
  else if decide (c = 60%N) then lit "&lt;"
  else if decide (c = 62%N) then lit "&gt;"
  else if decide (c = 34%N) then lit "&quot;"
  else if decide (c = 39%N) then lit "&#x27;"
  else [c].

Definition html_escape (text : str) : str := text ≫= html_escape_char.

(** [sep.join(parts)] *)
Fixpoint str_join (sep : str) (parts : list str) : str :=
  match parts with
  | [] => []
  | [part] => part
  | part :: rest => part ++ sep ++ str_join sep rest
  end.

Definition sanitize_user_input (text : str) (max_length : Z) : str :=
  let sanitized := html_escape text in
  let sanitized := str_join (lit " ") (py_split sanitized) in
  if decide (max_length < Z.of_nat (length sanitized))%Z
  then py_slice sanitized None (Some max_length)
  else sanitized.

(** ** More observations *)

Definition is_initialize (ev : event) : bool :=
  match ev with
  | EvInitialize => true
  | _ => false
  end.

(** The number of times the artifacts are loaded among the events. *)
Definition loads (evs : list event) : nat := length (filter is_initialize evs).


(** The loader after a call of the engine from [self]. *)
Definition loader_after (env : Env) (self : ModelLoader) : ModelLoader :=
  match engine_assets env self with
  | Some a => Ready a
  | None => Uninitialized
  end.

(** ** Counting the loading and the forward passes of a translation *)

(** The most forward passes one decode can make from the loader [self]. *)
Definition decode_budget (env : Env) (self : ModelLoader) : nat :=
  match engine_assets env self with
  | Some a => max_khm_len a + 10
  | None => 0
  end.

(** How often the artifacts are loaded when [n] words are decoded from
    [self]. *)
Definition load_count (env : Env) (self : ModelLoader) (n : nat) : nat :=
  match self with
  | Ready _ => 0
  | Uninitialized =>
      match artifacts env with
      | Ok _ => Nat.min 1 n
      | Raise _ => n
      end
  end.

(** ** The database layer ([backend/database/connection.py]) *)

(** A value bound to a query parameter or read from a column. *)
Inductive sqlval : Type :=
  | SqlNone
  | SqlStr (s : str)
  | SqlFloat (x : Q)
  | SqlInt (n : Z)
  | SqlTimestamp (t : Z).

(** A row of a [RealDictCursor]: the columns with their values. *)
Definition row : Type := list (str * sqlval).

(** What [execute_query] returns: the row of [fetchone()] or [None], the
    rows of [fetchall()], or [cursor.rowcount]. *)
Inductive query_result : Type :=
  | FetchedOne (r : option row)
  | FetchedAll (rs : list row)
  | Rowcount (n : Z).

(** psycopg2 and the server behind it, with [settings.DATABASE_URL].  Pools,
    connections and cursors are handles; every call may raise and may
    change the state [D] of the driver.  Pool, connection and cursor
    objects are truthy.  [cursor.execute] takes the parameters it is
    given, or [None] when it is given none. *)
Record Driver (D : Type) : Type := {
  DATABASE_URL : str;
  SimpleConnectionPool : D → Exc nat * D;
  pool_getconn : nat → D → Exc nat * D;
  pool_putconn : nat → nat → D → Exc unit * D;
  conn_cursor : nat → D → Exc nat * D;
  cursor_execute : nat → str → option (list sqlval) → D → Exc unit * D;
  cursor_fetchone : nat → D → Exc (option row) * D;
  cursor_fetchall : nat → D → Exc (list row) * D;
  cursor_rowcount : nat → D → Z;
  conn_commit : nat → D → Exc unit * D;
  conn_rollback : nat → D → Exc unit * D;
  cursor_close : nat → D → Exc unit * D
}.
Arguments DATABASE_URL {D} _.
Arguments SimpleConnectionPool {D} _ _.
Arguments pool_getconn {D} _ _ _.
Arguments pool_putconn {D} _ _ _ _.
Arguments conn_cursor {D} _ _ _.
Arguments cursor_execute {D} _ _ _ _ _.
Arguments cursor_fetchone {D} _ _ _.
Arguments cursor_fetchall {D} _ _ _.
Arguments cursor_rowcount {D} _ _ _.
Arguments conn_commit {D} _ _ _.
Arguments conn_rollback {D} _ _ _.
Arguments cursor_close {D} _ _ _.

(** The calls made to the driver, each with its outcome, and the sleeps. *)
Inductive db_event : Type :=
  | DbConnect (r : Exc nat)
  | DbSleep (seconds : Z)
  | DbGetconn (pool : nat) (r : Exc nat)
  | DbPutconn (pool conn : nat) (r : Exc unit)
  | DbCursor (conn : nat) (r : Exc nat)
  | DbExecute (cursor : nat) (query : str) (params : option (list sqlval))
      (r : Exc unit)
  | DbFetchone (cursor : nat) (r : Exc (option row))
  | DbFetchall (cursor : nat) (r : Exc (list row))
  | DbCommit (conn : nat) (r : Exc unit)
  | DbRollback (conn : nat) (r : Exc unit)
  | DbClose (cursor : nat) (r : Exc unit).

(** A computation on a state [St]: it may raise, records its events and may
    change the state; the state it leaves is kept when it raises. *)
Definition ST (St A : Type) : Type := St → (Exc A * list db_event) * St.

#[global] Instance ST_ret {St} : MRet (ST St) := λ A a s, ((Ok a, []), s).
#[global] Instance ST_bind {St} : MBind (ST St) := λ A B f m s,
  let '(out, evs, s') := m s in
  match out with
  | Ok a => let '(out', evs', s'') := f a s' in (out', evs ++ evs', s'')
  | Raise e => (Raise e, evs, s')
  end.

Definition st_raise {St A} (e : exn) : ST St A := λ s, ((Raise e, []), s).
Definition st_get {St} : ST St St := λ s, ((Ok s, []), s).

(** [try: body  except Exception as e: handler e] *)
Definition st_try {St A} (body : ST St A) (handler : exn → ST St A) : ST St A := λ s,
  let '(out, evs, s') := body s in
  match out with
  | Ok a => (Ok a, evs, s')
  | Raise e => let '(out', evs', s'') := handler e s' in (out', evs ++ evs', s'')
  end.

(** [try: body  finally: final]: [final] runs in every case, and an
    exception of [final] replaces the outcome of [body]. *)
Definition st_finally {St A} (body : ST St A) (final : ST St unit) : ST St A := λ s,
  let '(out, evs, s') := body s in
  let '(out', evs', s'') := final s' in
  (match out' with Ok _ => out | Raise e => Raise e end, evs ++ evs', s'').

(** The local variables of a call, beside the state. *)
Definition in_frame {St F A} (m : ST St A) : ST (St * F) A := λ s,
  let '(out, evs, s') := m s.1 in (out, evs, (s', s.2)).
Definition get_frame {St F} : ST (St * F) F := λ s, ((Ok s.2, []), s).
Definition set_frame {St F} (f : F) : ST (St * F) unit := λ s, ((Ok tt, []), (s.1, f)).
Definition with_frame {St F A} (f : F) (m : ST (St * F) A) : ST St A := λ s,
  let '(out, evs, s') := m (s, f) in (out, evs, s'.1).

(** The class [Database]: [cls._pool], and the state of the driver. *)
Record Database (D : Type) : Type := {
  _pool : option nat;
  server : D
}.
Arguments Build_Database {D} _ _.
Arguments _pool {D} _.
Arguments server {D} _.

(** A call to the driver. *)
Definition call {D A} (ev : Exc A → db_event) (op : D → Exc A * D) : ST (Database D) A :=
  λ cls,
    let '(out, d) := op (server cls) in
    (out, [ev out], {| _pool := _pool cls; server := d |}).

Definition set_pool {D} (p : nat) : ST (Database D) unit := λ cls,
  ((Ok tt, []), {| _pool := Some p; server := server cls |}).

Definition sleep {St} (seconds : Z) : ST St unit := λ s, ((Ok tt, [DbSleep seconds]), s).

Definition max_retries : nat := 3.
Definition retry_delay : Z := 2.

(** [Database.initialize_pool]: the loop over [range(max_retries)]. *)
Fixpoint initialize_pool_loop {D} (drv : Driver D) (attempts : list nat)
    : ST (Database D) bool :=
  match attempts with
  | [] => mret true
  | attempt :: attempts =>
      st_try (p ← call DbConnect (SimpleConnectionPool drv);
              _ ← set_pool p;
              mret true)
             (λ e, if attempt <? max_retries - 1
                   then _ ← sleep retry_delay; initialize_pool_loop drv attempts
                   else mret false)
  end.

Definition initialize_pool {D} (drv : Driver D) : ST (Database D) bool :=
  cls ← st_get;
  if bool_decide (_pool cls = None) && bool_decide (DATABASE_URL drv ≠ [])
  then initialize_pool_loop drv (seq 0 max_retries)
  else mret true.

(** [Database.get_pool] *)
Definition get_pool {D} (drv : Driver D) : ST (Database D) (option nat) :=
  cls ← st_get;
  _ ← (if bool_decide (_pool cls = None) then initialize_pool drv else mret true);
  cls ← st_get;
  mret (_pool cls).

(** [Database.get_connection] *)
Definition get_connection {D} (drv : Driver D) : ST (Database D) (option nat) :=
  pool ← get_pool drv;
  match pool with
  | Some p => st_try (conn ← call (DbGetconn p) (pool_getconn drv p); mret (Some conn))
                     (λ e, st_raise e)
  | None => mret None
  end.

(** [Database.return_connection] *)
Definition return_connection {D} (drv : Driver D) (conn : option nat)
    : ST (Database D) unit :=
  pool ← get_pool drv;
  match pool, conn with
  | Some p, Some c => st_try (call (DbPutconn p c) (pool_putconn drv p c)) (λ e, mret tt)
  | _, _ => mret tt
  end.

(** The locals [conn] and [cursor] of [execute_query]. *)
Record Locals : Type := {
  conn : option nat;
  cursor : option nat
}.

(** [Exception("No database connection available")] *)
Definition NoConnection : exn := OtherError 1.

(** [Database.execute_query] *)
Definition execute_query {D} (drv : Driver D) (query : str) (params : option (list sqlval))
    (fetch_one fetch_all : bool) : ST (Database D) query_result :=
  with_frame {| conn := None; cursor := None |}
    (st_finally
       (st_try
          (c ← in_frame (get_connection drv);
           _ ← set_frame {| conn := c; cursor := None |};
           match c with
           | None => st_raise NoConnection
           | Some c' =>
               cu ← in_frame (call (DbCursor c') (conn_cursor drv c'));
               _ ← set_frame {| conn := c; cursor := Some cu |};
               let params := Some (default [] params) in
               _ ← in_frame (call (DbExecute cu query params)
                                  (cursor_execute drv cu query params));
               if fetch_one then
                 result ← in_frame (call (DbFetchone cu) (cursor_fetchone drv cu));
                 _ ← in_frame (call (DbCommit c') (conn_commit drv c'));
                 mret (FetchedOne result)
               else if fetch_all then
                 result ← in_frame (call (DbFetchall cu) (cursor_fetchall drv cu));
                 _ ← in_frame (call (DbCommit c') (conn_commit drv c'));
                 mret (FetchedAll result)
               else
                 _ ← in_frame (call (DbCommit c') (conn_commit drv c'));
                 s ← st_get;
                 mret (Rowcount (cursor_rowcount drv cu (server s.1)))
           end)
          (λ e,
             fr ← get_frame;
             _ ← match conn fr with
                 | Some c => in_frame (call (DbRollback c) (conn_rollback drv c))
                 | None => mret tt
                 end;
             st_raise e))
       (fr ← get_frame;
        _ ← match cursor fr with
            | Some cu => in_frame (call (DbClose cu) (cursor_close drv cu))
            | None => mret tt
            end;
        match conn fr with
        | Some c => in_frame (return_connection drv (Some c))
        | None => mret tt
        end)).

(** [Database.check_connection] *)
Definition check_connection {D} (drv : Driver D) : ST (Database D) bool :=
  if bool_decide (DATABASE_URL drv = []) then mret false
  else
    with_frame None
      (st_finally
         (st_try
            (c ← in_frame (get_connection drv);
             _ ← set_frame c;
             match c with
             | None => mret false
             | Some c' =>
                 cu ← in_frame (call (DbCursor c') (conn_cursor drv c'));
                 _ ← in_frame (call (DbExecute cu (lit "SELECT 1") None)
                                    (cursor_execute drv cu (lit "SELECT 1") None));
                 result ← in_frame (call (DbFetchone cu) (cursor_fetchone drv cu));
                 _ ← in_frame (call (DbClose cu) (cursor_close drv cu));
                 mret true
             end)
            (λ e, mret false))
         (conn ← get_frame;
          match conn with
          | Some c => in_frame (return_connection drv (Some c))
          | None => mret tt
          end)).

(** A commit or a rollback. *)
Definition is_transaction (ev : db_event) : bool :=
  match ev with DbCommit _ _ | DbRollback _ _ => true | _ => false end.

(** ** [TranslationService]: the stored predictions *)

Module Prediction.
Record t : Type := {
  id : str;
  input_text : str;
  output_text : str;
  confidence : Q;
  timestamp : Z;
  user_ip : option str;
  user_agent : option str
}.
End Prediction.

Definition sql_optional (o : option str) : sqlval :=
  match o with
  | Some s => SqlStr s
  | None => SqlNone
  end.

(** Truthiness of what [execute_query] returns. *)
Definition truthy (result : query_result) : bool :=
  match result with
  | FetchedOne (Some (_ :: _)) => true
  | FetchedOne _ => false
  | FetchedAll (_ :: _) => true
  | FetchedAll [] => false
  | Rowcount n => negb (n =? 0)%Z
  end.

Definition save_prediction_query : str :=
  [10%N]
  ++ lit "            INSERT INTO predictions (id, input_text, output_text, confidence, user_ip, user_agent, created_at)"
  ++ [10%N] ++ lit "            VALUES (%s, %s, %s, %s, %s, %s, %s)"
  ++ [10%N] ++ lit "            RETURNING id"
  ++ [10%N] ++ lit "            ".

Definition recent_predictions_query : str :=
  [10%N]
  ++ lit "            SELECT id, input_text, output_text, confidence, user_ip, created_at"
  ++ [10%N] ++ lit "            FROM predictions "
  ++ [10%N] ++ lit "            ORDER BY created_at DESC "
  ++ [10%N] ++ lit "            LIMIT %s"
  ++ [10%N] ++ lit "            ".

(** [TranslationService.save_prediction] *)
Definition save_prediction {D} (drv : Driver D) (prediction : Prediction.t)
    : ST (Database D) str :=
  st_try
    (result ← execute_query drv save_prediction_query
                (Some [SqlStr (Prediction.id prediction);
                       SqlStr (Prediction.input_text prediction);
                       SqlStr (Prediction.output_text prediction);
                       SqlFloat (Prediction.confidence prediction);
                       sql_optional (Prediction.user_ip prediction);
                       sql_optional (Prediction.user_agent prediction);
                       SqlTimestamp (Prediction.timestamp prediction)])
                true false;
     if truthy result then mret (Prediction.id prediction)
     else mret (Prediction.id prediction))
    (λ e, mret (Prediction.id prediction)).

(** [TranslationService.get_recent_predictions] *)
Definition get_recent_predictions {D} (drv : Driver D) (limit : Z)
    : ST (Database D) (list row) :=
  st_try
    (results ← execute_query drv recent_predictions_query (Some [SqlInt limit]) false true;
     mret (match results with
           | FetchedAll (r :: rs) => r :: rs
           | _ => []
           end))
    (λ e, mret []).

(** Reading a trace. *)
Definition is_connect (ev : db_event) : bool :=
  match ev with DbConnect _ => true | _ => false end.
Definition connects (evs : list db_event) : nat :=
  length (List.filter is_connect evs).

Definition slept (evs : list db_event) : Z :=
  foldr (λ ev acc, match ev with DbSleep s => (s + acc)%Z | _ => acc end) 0%Z evs.

Definition is_getconn (ev : db_event) : bool :=
  match ev with DbGetconn _ _ => true | _ => false end.

Definition is_setup (ev : db_event) : bool :=
  match ev with DbConnect _ | DbSleep _ => true | _ => false end.

Definition is_execute (ev : db_event) : bool :=
  match ev with DbExecute _ _ _ _ => true | _ => false end.

(** A step of the [try] block, after the connection was obtained, raised. *)
Definition failed_in_try (ev : db_event) : bool :=
  match ev with
  | DbCursor _ (Raise _) | DbExecute _ _ _ (Raise _) | DbFetchone _ (Raise _)
  | DbFetchall _ (Raise _) | DbCommit _ (Raise _) => true
  | _ => false
  end.

(** A driver whose server cannot be reached: every call raises. *)
Definition offline_driver (url : str) : Driver unit :=
  {| DATABASE_URL := url;
     SimpleConnectionPool := λ d, (Raise (OtherError 2), d);
     pool_getconn := λ _ d, (Raise (OtherError 2), d);
     pool_putconn := λ _ _ d, (Raise (OtherError 2), d);
     conn_cursor := λ _ d, (Raise (OtherError 2), d);
     cursor_execute := λ _ _ _ d, (Raise (OtherError 2), d);
     cursor_fetchone := λ _ d, (Raise (OtherError 2), d);
     cursor_fetchall := λ _ d, (Raise (OtherError 2), d);
     cursor_rowcount := λ _ _, (-1)%Z;
     conn_commit := λ _ d, (Raise (OtherError 2), d);
     conn_rollback := λ _ d, (Raise (OtherError 2), d);
     cursor_close := λ _ d, (Raise (OtherError 2), d) |}.

Definition toy_prediction : Prediction.t :=
  {| Prediction.id := lit "8ebdf006";
     Prediction.input_text := lit "nh";
     Prediction.output_text := [6017%N];
     Prediction.confidence := 8085 # 100;
     Prediction.timestamp := 0;
     Prediction.user_ip := Some (lit "127.0.0.1");
     Prediction.user_agent := None |}.

(** * Properties *)

(** ** Slices and slice assignment *)

Lemma py_slice_prefix {A} (l : list A) (n : nat) :
  py_slice l None (Some (Z.of_nat n)) = take n l.
Proof.
  unfold py_slice, slice_lo, slice_hi, slice_index; simpl.
  destruct (decide _) as [?|_]; [lia|].
  rewrite drop_0, Nat.sub_0_r.
  destruct (decide (n ≤ length l)).
  - f_equal. lia.
  - rewrite !take_ge by lia. reflexivity.
Qed.



Lemma np_broadcast_same (n : nat) (value : list Z) :
  length value = n → np_broadcast n value = Ok value.
Proof. intros H. unfold np_broadcast. rewrite decide_True by done. done. Qed.

Lemma np_setslice_whole (row value : list Z) :
  np_setslice row None None value =
  v ← np_broadcast (length row) value; Ok v.
Proof.
  unfold np_setslice, slice_lo, slice_hi; simpl.
  rewrite Nat.sub_0_r.
  destruct (np_broadcast _ _) as [v|e]; simpl; [|done].
  rewrite drop_all, app_nil_r. done.
Qed.

(** Back alignment never raises and computes the specified row. *)
Lemma pad_assign_back (maxlen : nat) (seq : list Z) :
  pad_assign maxlen (lit "post") (replicate maxlen 0%Z) seq
  = Ok (pad_spec seq maxlen true).
Proof.
  unfold pad_assign, pad_spec.
  rewrite (decide_True (P := lit "post" = lit "post")) by done.
  destruct (decide (maxlen < length seq)) as [Hlt|Hge].
  - rewrite np_setslice_whole, py_slice_prefix, length_replicate.
    rewrite np_broadcast_same by (rewrite length_take; lia). simpl.
    replace (maxlen - length seq) with 0 by lia. simpl.
    by rewrite app_nil_r.
  - unfold np_setslice, slice_lo, slice_hi, slice_index; simpl.
    rewrite length_replicate.
    destruct (decide _) as [?|_]; [lia|].
    replace (Z.to_nat (Z.of_nat (length seq) `min` Z.of_nat maxlen)) with (length seq) by lia.
    rewrite Nat.sub_0_r, np_broadcast_same by done. simpl.
    rewrite take_ge by lia. rewrite drop_replicate. done.
Qed.


Lemma mapM_Exc_Ok {A B} (f : A → Exc B) (l : list A) (ys : list B) :
  mapM f l = Ok ys ↔ Forall2 (λ x y, f x = Ok y) l ys.
Proof.
  revert ys. induction l as [|x l IH]; intros ys; simpl.
  - split; [intros [= <-]; constructor | by inversion 1].
  - destruct (f x) as [y|e] eqn:Hx; simpl.
    + destruct (mapM f l) as [k|e] eqn:Hl; simpl.
      * split.
        -- intros [= <-]. constructor; [done|]. by apply IH.
        -- inversion 1 as [|? y' ? k' Hy Hk]; subst.
           apply IH in Hk. unfold mret, Exc_ret. congruence.
      * split; [done|]. inversion 1 as [|? y' ? k' Hy Hk]; subst.
        apply IH in Hk. done.
    + split; [done|]. inversion 1; congruence.
Qed.

Lemma pad_loop_rows (maxlen : nat) (padding : str) (sequences done : list (list Z)) :
  pad_loop maxlen padding (done ++ np_zeros (length sequences) maxlen)
           (length done) sequences
  = rows ← mapM (pad_assign maxlen padding (replicate maxlen 0%Z)) sequences;
    Ok (done ++ rows).
Proof.
  revert done. induction sequences as [|seq rest IH]; intros done; simpl.
  - unfold np_zeros; simpl. by rewrite app_nil_r.
  - unfold pad_body.
    change (np_zeros (S (length rest)) maxlen)
      with (replicate maxlen 0%Z :: np_zeros (length rest) maxlen).
    rewrite list_lookup_middle by done. simpl.
    destruct (pad_assign _ _ _ seq) as [row'|e]; simpl; [|done].
    rewrite insert_app_r_alt, Nat.sub_diag by lia. simpl.
    rewrite (cons_middle row' done), app_assoc.
    replace (S (length done)) with (length (done ++ [row']))
      by (rewrite length_app; simpl; lia).
    rewrite IH.
    destruct (mapM _ rest) as [rows|e]; simpl; [|done].
    by rewrite <- app_assoc.
Qed.

(** The array loop computes the rows one by one. *)
Lemma pad_sequences_rows (sequences : list (list Z)) (maxlen : nat) (padding : str) :
  _pad_sequences sequences maxlen padding
  = mapM (pad_assign maxlen padding (replicate maxlen 0%Z)) sequences.
Proof.
  unfold _pad_sequences.
  pose proof (pad_loop_rows maxlen padding sequences []) as H.
  simpl in H. rewrite H.
  by destruct (mapM _ sequences).
Qed.







(** Back alignment is total: every row is the specified one. *)
Lemma pad_sequences_back (sequences : list (list Z)) (maxlen : nat) :
  _pad_sequences sequences maxlen (lit "post")
  = Ok ((λ seq, pad_spec seq maxlen true) <$> sequences).
Proof.
  rewrite pad_sequences_rows. apply mapM_Exc_Ok.
  induction sequences; constructor; [apply pad_assign_back|done].
Qed.

(** ** Rounding and means *)

Lemma round_half_even_proper (x y : Q) :
  (x == y)%Q → round_half_even x = round_half_even y.
Proof.
  intros H. unfold round_half_even.
  rewrite (Qfloor_comp _ _ H).
  assert (x - inject_Z (Qfloor y) == y - inject_Z (Qfloor y))%Q as H'
    by (rewrite H; reflexivity).
  rewrite (Qcompare_comp _ _ H' (1 # 2) (1 # 2) (Qeq_refl _)).
  reflexivity.
Qed.

Lemma round2_proper (x y : Q) : (x == y)%Q → round2 x = round2 y.
Proof.
  intros H. unfold round2. f_equal.
  rewrite (round_half_even_proper (x * 100) (y * 100)); [done|].
  rewrite H. reflexivity.
Qed.





(** ** The effect layers *)

Lemma W_bind_eq {A B} (m : W A) (f : A → W B) :
  m ≫= f = match m.1 with
            | Ok a => ((f a).1, m.2 ++ (f a).2)
            | Raise e => (Raise e, m.2)
            end.
Proof. reflexivity. Qed.

Lemma forward_passes_app (evs1 evs2 : list event) :
  forward_passes (evs1 ++ evs2) = forward_passes evs1 + forward_passes evs2.
Proof. unfold forward_passes. by rewrite filter_app, length_app. Qed.

Lemma forward_passes_cons (ev : event) (evs : list event) :
  forward_passes (ev :: evs) = (if is_forward ev then 1 else 0) + forward_passes evs.
Proof.
  unfold forward_passes. rewrite filter_cons.
  destruct (is_forward ev) eqn:H; destruct (decide _) as [H'|H']; simpl; try done;
    by rewrite H in H'.
Qed.

Lemma forward_passes_nil : forward_passes [] = 0.
Proof. done. Qed.

Lemma engine_calls_cons (ev : event) (evs : list event) :
  engine_calls (ev :: evs) = (if is_engine_call ev then 1 else 0) + engine_calls evs.
Proof.
  unfold engine_calls. rewrite filter_cons.
  destruct (is_engine_call ev) eqn:H; destruct (decide _) as [H'|H']; simpl; try done;
    by rewrite H in H'.
Qed.

Lemma engine_calls_app (evs1 evs2 : list event) :
  engine_calls (evs1 ++ evs2) = engine_calls evs1 + engine_calls evs2.
Proof. unfold engine_calls. by rewrite filter_app, length_app. Qed.

Create Rewrite HintDb events.
#[local] Hint Rewrite forward_passes_cons forward_passes_nil forward_passes_app
  engine_calls_cons engine_calls_app : events.

Ltac count_events :=
  autorewrite with events in *; simpl is_forward in *; simpl is_engine_call in *.

(** ** The greedy loop *)

Lemma argmax_from_lt (xs : list Q) (best i : nat) (best_val : Q) :
  best < i → argmax_from best best_val i xs < i + length xs.
Proof.
  revert best i best_val. induction xs as [|x xs IH]; intros best i v Hlt; simpl.
  - lia.
  - destruct (Qle_bool x v).
    + specialize (IH best (S i) v). lia.
    + specialize (IH i (S i) x). lia.
Qed.

Lemma np_argmax_lt (xs : list Q) (n : nat) : np_argmax xs = Ok n → n < length xs.
Proof.
  destruct xs as [|x xs]; simpl; [done|]. intros [= <-].
  pose proof (argmax_from_lt xs 0 1 x). lia.
Qed.

(** The decoder input is padded at the back, which never raises. *)
Lemma pad_decoder_seq (decoder_seq : list Z) (maxlen : nat) :
  _pad_sequences [decoder_seq] maxlen (lit "post") = Ok [pad_spec decoder_seq maxlen true].
Proof. by rewrite pad_sequences_back. Qed.

(** One iteration: what it records, and how it leaves the loop state. *)
Lemma greedy_body_cases (a : Assets) (enc : list (list Z)) (end_idx : Z) (t : nat)
    (decoder_seq : list Z) (confidences : list Q) :
  let dec := [pad_spec decoder_seq (max_khm_len a + 1) true] in
  let r := greedy_body a enc end_idx t (decoder_seq, confidences) in
  let time_index := (Z.of_nat (length decoder_seq) - 1)%Z in
  r.2 = [EvForward enc dec] ∧
  match model_predict a enc dec with
  | Raise e => r.1 = Raise e
  | Ok preds =>
      if decide (Z.of_nat (shape1 preds) ≤ time_index)%Z
      then r.1 = Ok (Break, (decoder_seq, confidences))
      else match r.1 with
           | Raise _ => True
           | Ok (fl, (decoder_seq', confidences')) =>
               ∃ ti next : nat,
                 np_axis_index time_index (shape1 preds) = Ok ti ∧
                 next < shape2 preds ∧
                 decoder_seq' = decoder_seq ++ [Z.of_nat next] ∧
                 confidences' = confidences ++ [item preds 0 ti next] ∧
                 (fl = Break ↔ Z.of_nat next = end_idx ∨ t = max_khm_len a + 9)
           end
  end.
Proof.
  intros dec r time_index. subst r. unfold greedy_body, forward.
  rewrite pad_decoder_seq. fold dec.
  rewrite !W_bind_eq. simpl.
  destruct (model_predict a enc dec) as [preds|e]; simpl; [|done].
  fold time_index.
  destruct (decide (Z.of_nat (shape1 preds) ≤ time_index)%Z) as [Hoob|Hin];
    simpl; [done|].
  split.
  { destruct (np_index2 _ _ _) as [probs|?]; simpl; [|done].
    destruct (np_argmax probs) as [next|?]; simpl; [|done].
    by destruct (decide _). }
  unfold np_index2.
  destruct (np_axis_index 0 (shape0 preds)) as [i'|?] eqn:Hi; simpl; [|done].
  assert (i' = 0) as ->.
  { unfold np_axis_index in Hi. repeat case_decide; simplify_eq; lia. }
  destruct (np_axis_index time_index (shape1 preds)) as [ti|?]; simpl; [|done].
  destruct (np_argmax _) as [next|?] eqn:Hmax; simpl; [|done].
  apply np_argmax_lt in Hmax. rewrite length_fmap, length_seq in Hmax.
  rewrite list_lookup_fmap, lookup_seq_lt by done. simpl.
  destruct (decide _) as [Hbr|Hbr]; simpl; exists ti, next; repeat split; done.
Qed.

(** The loop state after [for_range n t]: how long the decoder sequence can
    have become, and how many forward passes were made. *)
Lemma for_range_bounds (a : Assets) (enc : list (list Z)) (end_idx : Z)
    (n t : nat) (decoder_seq : list Z) (confidences : list Q) :
  let r := for_range n t (greedy_body a enc end_idx) (decoder_seq, confidences) in
  forward_passes r.2 ≤ n ∧
  match r.1 with
  | Raise _ => True
  | Ok (decoder_seq', confidences') =>
      length decoder_seq ≤ length decoder_seq' ∧
      length decoder_seq' - length decoder_seq = length confidences' - length confidences ∧
      length confidences ≤ length confidences' ∧
      length confidences' - length confidences ≤ forward_passes r.2 ∧
      (t ≤ max_khm_len a + 9 →
       length decoder_seq' ≤ length decoder_seq + Nat.min n (max_khm_len a + 10 - t))
  end.
Proof.
  revert t decoder_seq confidences.
  induction n as [|n IH]; intros t decoder_seq confidences; cbn [for_range].
  { unfold mret, W_ret; cbn [fst snd]. count_events. repeat split; lia. }
  rewrite W_bind_eq.
  pose proof (greedy_body_cases a enc end_idx t decoder_seq confidences) as [Hev Hres].
  cbv zeta in Hev, Hres.
  destruct (greedy_body a enc end_idx t (decoder_seq, confidences))
    as [[[fl [dseq1 confs1]]|e] evs]; cbn [fst snd] in *; subst evs.
  2: { count_events. split; [lia|done]. }
  assert (fl = Break ∧ dseq1 = decoder_seq ∧ confs1 = confidences ∨
          ∃ next p, dseq1 = decoder_seq ++ [next] ∧ confs1 = confidences ++ [p] ∧
                    (fl = Break ↔ next = end_idx ∨ t = max_khm_len a + 9)) as Hcase.
  { destruct (model_predict _ _ _) as [preds|?]; [|done].
    destruct (decide _).
    - left. by simplify_eq.
    - right. destruct Hres as (ti & next & _ & _ & -> & -> & Hfl). eauto. }
  clear Hres.
  destruct fl.
  - (* Continue *)
    destruct Hcase as [[? _]|(next & p & -> & -> & Hfl)]; [done|].
    specialize (IH (S t) (decoder_seq ++ [next]) (confidences ++ [p])).
    destruct IH as [IHev IHres].
    destruct (for_range n (S t) _ _) as [[[dseq2 confs2]|e] evs2]; cbn [fst snd] in *.
    + rewrite !length_app in IHres. cbn [length] in IHres. count_events.
      split; [lia|].
      destruct IHres as (? & ? & ? & ? & Hlen).
      repeat split; try lia.
      intros Ht.
      assert (t ≠ max_khm_len a + 9) as Hne.
      { intros ->. destruct Hfl as [_ Hfl]. by specialize (Hfl (or_intror eq_refl)). }
      lia.
    + count_events. split; [lia|done].
  - (* Break *)
    unfold mret, W_ret; cbn [fst snd]. count_events. split; [lia|].
    destruct Hcase as [(_ & -> & ->)|(next & p & -> & -> & _)].
    + repeat split; lia.
    + rewrite !length_app; cbn [length]. repeat split; lia.
Qed.

(** The greedy loop records forward passes only. *)
Lemma for_range_events (a : Assets) (enc : list (list Z)) (end_idx : Z)
    (n t : nat) (st : list Z * list Q) :
  Forall (λ ev, is_forward ev = true) (for_range n t (greedy_body a enc end_idx) st).2.
Proof.
  revert t st. induction n as [|n IH]; intros t [decoder_seq confidences]; cbn [for_range].
  { constructor. }
  rewrite W_bind_eq.
  pose proof (greedy_body_cases a enc end_idx t decoder_seq confidences) as [Hev _].
  cbv zeta in Hev.
  destruct (greedy_body a enc end_idx t (decoder_seq, confidences))
    as [[[fl st']|e] evs]; cbn [fst snd] in *; subst evs.
  - destruct fl; cbn [fst snd].
    + constructor; [done|]. apply IH.
    + by repeat constructor.
  - by repeat constructor.
Qed.

Lemma encode_decode_events (a : Assets) (word cleaned : str) :
  Forall (λ ev, is_forward ev = true) (encode_decode a word cleaned).2.
Proof.
  unfold encode_decode. rewrite W_bind_eq. cbn [lift fst snd app].
  destruct (texts_to_sequences _ _) as [enc_seq|?]; [|constructor].
  rewrite W_bind_eq. cbn [lift fst snd app].
  destruct (_pad_sequences _ _ _) as [enc_padded|?]; [|constructor].
  destruct (word_index _ !! [9%N]) as [start_idx|]; [|constructor].
  destruct (word_index _ !! [10%N]) as [end_idx|]; [|constructor].
  rewrite W_bind_eq.
  pose proof (for_range_events a enc_padded end_idx (max_khm_len a + 10) 0
                ([start_idx], [])) as Hev.
  fold (greedy_loop a enc_padded start_idx end_idx) in Hev.
  destruct (greedy_loop a enc_padded start_idx end_idx) as [[out|?] evs];
    cbn [fst snd mret W_ret] in *; by rewrite ?app_nil_r.
Qed.

Lemma forward_only_engine_calls (evs : list event) :
  Forall (λ ev, is_forward ev = true) evs → engine_calls evs = 0.
Proof.
  induction 1 as [|ev evs Hev _ IH]; [done|].
  count_events. rewrite IH. by destruct ev.
Qed.

Lemma forward_only_length (evs : list event) :
  Forall (λ ev, is_forward ev = true) evs → forward_passes evs = length evs.
Proof.
  induction 1 as [|ev evs Hev _ IH]; [done|].
  count_events. rewrite IH, Hev. done.
Qed.

(** ** The engine on each loader state *)

Lemma try_except_fallback {A} (body : W A) (x : A) :
  try_except body (λ _, mret x)
  = (match body.1 with Ok out => Ok out | Raise _ => Ok x end, body.2).
Proof.
  unfold try_except. destruct body as [[out|e] evs]; cbn; [done|].
  by rewrite app_nil_r.
Qed.

Lemma predict_ready (env : Env) (word : str) (a : Assets) :
  predict_khmer_with_confidence env word (Ready a)
  = if decide (length (clean_text env word false) = 0)
    then ((Ok ([], 0%Q), [EvEngine word]), Ready a)
    else let w := guarded a word (clean_text env word false) in
         ((w.1, EvEngine word :: w.2), Ready a).
Proof.
  unfold predict_khmer_with_confidence, guarded, mbind, M_bind, liftW, get_self, tell.
  cbn [fst snd _initialized mret M_ret app].
  destruct (decide _); cbn [fst snd app]; [done|].
  rewrite !try_except_fallback. cbn [fst snd].
  rewrite W_bind_eq. cbn [lift attributes fst snd app]. done.
Qed.

Lemma predict_uninitialized_ok (env : Env) (word : str) (a : Assets) :
  artifacts env = Ok a →
  predict_khmer_with_confidence env word Uninitialized
  = if decide (length (clean_text env word false) = 0)
    then ((Ok ([], 0%Q), [EvEngine word; EvInitialize]), Ready a)
    else let w := guarded a word (clean_text env word false) in
         ((w.1, EvEngine word :: EvInitialize :: w.2), Ready a).
Proof.
  intros Hload.
  unfold predict_khmer_with_confidence, guarded, mbind, M_bind, liftW, get_self, tell, initialize.
  cbn [fst snd _initialized mret M_ret app]. rewrite Hload.
  cbn [fst snd _initialized mret M_ret app].
  destruct (decide _); cbn [fst snd app]; [done|].
  rewrite !try_except_fallback. cbn [fst snd].
  rewrite W_bind_eq. cbn [lift attributes fst snd app]. done.
Qed.

Lemma predict_uninitialized_fail (env : Env) (word : str) (e : exn) :
  artifacts env = Raise e →
  predict_khmer_with_confidence env word Uninitialized
  = ((Raise e, [EvEngine word; EvInitialize]), Uninitialized).
Proof.
  intros Hload.
  unfold predict_khmer_with_confidence, mbind, M_bind, liftW, get_self, tell, initialize.
  cbn [fst snd _initialized mret M_ret app]. rewrite Hload.
  cbn [fst snd _initialized mret M_ret app]. done.
Qed.

Lemma guarded_events (a : Assets) (word cleaned : str) :
  (guarded a word cleaned).2 = (encode_decode a word cleaned).2.
Proof. unfold guarded. by rewrite try_except_fallback. Qed.

Lemma guarded_engine_calls (a : Assets) (word cleaned : str) :
  engine_calls (guarded a word cleaned).2 = 0.
Proof.
  rewrite guarded_events. apply forward_only_engine_calls, encode_decode_events.
Qed.

Lemma guarded_total (a : Assets) (word cleaned : str) :
  ∃ out, (guarded a word cleaned).1 = Ok out.
Proof.
  unfold guarded. rewrite try_except_fallback. cbn [fst].
  destruct (encode_decode a word cleaned).1; eauto.
Qed.

Lemma try_except_M_eq {A} (body : M A) (x : A) (self : ModelLoader) :
  try_except_M body (λ _, mret x) self
  = ((match (body self).1.1 with Ok out => Ok out | Raise _ => Ok x end,
      (body self).1.2), (body self).2).
Proof.
  unfold try_except_M. destruct (body self) as [[[out|e] evs] self']; cbn; [done|].
  by rewrite app_nil_r.
Qed.

(** [translate_single_word] always returns; its pair depends on the loader
    only through the attributes the engine decodes with, and these do not
    change. *)
Lemma translate_single_word_decode (env : Env) (word : str) (self : ModelLoader) :
  let r := translate_single_word env word self in
  r.1.1 = Ok (decode_with env (engine_assets env self) word) ∧
  engine_assets env r.2 = engine_assets env self ∧
  engine_calls r.1.2 = 1.
Proof.
  unfold translate_single_word. cbv zeta. rewrite try_except_M_eq. cbn [fst snd].
  destruct self as [|a]; cbn [engine_assets].
  - destruct (artifacts env) as [a|e] eqn:Hload.
    + rewrite (predict_uninitialized_ok env word a Hload). unfold decode_with.
      destruct (decide _); cbn [fst snd engine_assets]; count_events; [done|].
      destruct (guarded_total a word (clean_text env word false)) as [out ->].
      by rewrite guarded_engine_calls.
    + rewrite (predict_uninitialized_fail env word e Hload).
      cbn [fst snd engine_assets decode_with]. rewrite Hload. count_events. done.
  - rewrite predict_ready. unfold decode_with.
    destruct (decide _); cbn [fst snd engine_assets]; count_events; [done|].
    destruct (guarded_total a word (clean_text env word false)) as [out ->].
    by rewrite guarded_engine_calls.
Qed.

Lemma single_word_decode_eq (env : Env) (self : ModelLoader) (word : str) :
  single_word_decode env self word = decode_with env (engine_assets env self) word.
Proof.
  unfold single_word_decode.
  by destruct (translate_single_word_decode env word self) as [-> _].
Qed.

(** ** The orchestrator *)

Lemma M_bind_eq {A B} (m : M A) (f : A → M B) (self : ModelLoader) :
  (m ≫= f) self
  = match (m self).1.1 with
    | Ok x => (((f x (m self).2).1.1, (m self).1.2 ++ (f x (m self).2).1.2),
               (f x (m self).2).2)
    | Raise e => ((Raise e, (m self).1.2), (m self).2)
    end.
Proof. reflexivity. Qed.

Lemma single_word_decode_ext (env : Env) (self self' : ModelLoader) (word : str) :
  engine_assets env self' = engine_assets env self →
  single_word_decode env self' word = single_word_decode env self word.
Proof. intros H. by rewrite !single_word_decode_eq, H. Qed.

Lemma translate_loop_spec (env : Env) (words : list str)
    (results : list WordTranslation) (total : Q) (self : ModelLoader) :
  let r := translate_loop env words results total self in
  let outs := single_word_decode env self <$> words in
  r.1.1 = Ok (results ++ zip_with word_entry words outs,
              fold_left Qplus (snd <$> outs) total) ∧
  engine_assets env r.2 = engine_assets env self ∧
  engine_calls r.1.2 = length words.
Proof.
  cbv zeta. revert results total self.
  induction words as [|word rest IH]; intros results total self; cbn [translate_loop].
  { cbn. by rewrite app_nil_r. }
  rewrite M_bind_eq.
  destruct (translate_single_word_decode env word self) as (Hout & Hself & Hcalls).
  rewrite <- single_word_decode_eq in Hout.
  rewrite Hout. cbn [fst snd].
  set (out := single_word_decode env self word) in *.
  set (self' := (translate_single_word env word self).2) in *.
  specialize (IH (results ++ [{| wt_input := word; wt_translation := out.1;
                                 wt_confidence := out.2 |}])
                 (total + out.2)%Q self').
  destruct IH as (IHout & IHself & IHcalls).
  assert (single_word_decode env self' <$> rest
          = single_word_decode env self <$> rest) as Hmap.
  { apply list_fmap_ext. intros _ w _. by apply single_word_decode_ext. }
  rewrite Hmap in IHout.
  rewrite IHout, IHself, Hself. count_events. rewrite IHcalls, Hcalls.
  split; [|split; [done|cbn [length]; lia]].
  cbn [fmap list_fmap zip_with fold_left]. fold out.
  by rewrite <- app_assoc.
Qed.

Lemma fold_left_Qplus (xs : list Q) (total : Q) :
  (fold_left Qplus xs total == total + Qsum xs)%Q.
Proof.
  revert total. induction xs as [|x xs IH]; intros total; cbn [fold_left].
  - unfold Qsum; cbn. lra.
  - rewrite IH. unfold Qsum; cbn [foldr]. lra.
Qed.

Lemma split_from_nil (cur s : str) :
  split_from cur s = [] ↔ cur = [] ∧ forallb py_isspace s = true.
Proof.
  revert cur. induction s as [|c s IH]; intros cur; cbn [split_from forallb].
  - destruct (decide (cur = [])); split; try done; by intros [? _].
  - destruct (py_isspace c); cbn [andb].
    + destruct (decide (cur = [])) as [->|Hne].
      * apply IH.
      * split; [done|]. by intros [? _].
    + rewrite IH. split; [by intros [? _]|by intros [_ ?]].
Qed.

(** No word: the text is empty or all whitespace. *)
Lemma py_split_nil (text : str) :
  py_split text = [] ↔ forallb py_isspace text = true.
Proof.
  unfold py_split. rewrite split_from_nil. split; [by intros [_ ?]|done].
Qed.


Lemma fold_left_mean (xs : list Q) :
  xs ≠ [] →
  (fold_left Qplus xs 0 / inject_Z (Z.of_nat (length xs)) == np_mean xs)%Q.
Proof.
  intros Hne. unfold np_mean. rewrite fold_left_Qplus. field.
  change 0%Q with (inject_Z 0). rewrite inject_Z_injective.
  destruct xs; simpl; [done|lia].
Qed.

(** The dictionary that [translate_text] returns for a text with words. *)
Lemma translate_text_value (env : Env) (text : str) (self : ModelLoader) :
  py_split text ≠ [] →
  let outs := single_word_decode env self <$> py_split text in
  let results := zip_with word_entry (py_split text) outs in
  (translate_text env text self).1.1
  = Ok {| input_text := text;
          translation := py_join (wt_translation <$> results);
          word_translations := results;
          average_confidence :=
            round2 (fold_left Qplus (outs.*2) 0%Q
                    / inject_Z (Z.of_nat (length results)))%Q;
          word_count := length (py_split text) |}.
Proof.
  intros Hwords outs results. unfold translate_text.
  rewrite decide_False by done. rewrite M_bind_eq.
  destruct (translate_loop_spec env (py_split text) [] 0%Q self) as (Hloop & _ & _).
  rewrite Hloop. cbn [fst snd app]. fold outs. fold results.
  rewrite decide_False; [done|].
  unfold results, outs. destruct (py_split text); done.
Qed.

(** ** Confidences *)




(** ** The [try] block *)

(** Without one of the control tokens the block makes no forward pass; it
    returns the fallback unless the encoding raised before. *)
Lemma encode_decode_missing_token (a : Assets) (word cleaned : str) :
  word_index (khm_tokenizer a) !! [9%N] = None ∨
  word_index (khm_tokenizer a) !! [10%N] = None →
  (encode_decode a word cleaned).2 = [] ∧
  ((encode_decode a word cleaned).1 = Ok (bracket word, 0%Q) ∨
   ∃ e, (encode_decode a word cleaned).1 = Raise e).
Proof.
  intros Hmiss. unfold encode_decode. rewrite W_bind_eq. cbn [lift fst snd app].
  destruct (texts_to_sequences _ _) as [enc_seq|?]; [|by eauto].
  rewrite W_bind_eq. cbn [lift fst snd app].
  destruct (_pad_sequences _ _ _) as [enc_padded|?]; [|by eauto].
  destruct Hmiss as [-> | ->]; [by auto|].
  destruct (word_index _ !! [9%N]); by auto.
Qed.

(** A pair returned by the block is the missing-token fallback, or what
    [finish] makes of the final state of the greedy loop. *)
Lemma encode_decode_Ok (a : Assets) (word cleaned : str) (out : str * Q) :
  (encode_decode a word cleaned).1 = Ok out →
  out = (bracket word, 0%Q) ∨
  ∃ enc start_idx end_idx decoder_seq confidences,
    word_index (khm_tokenizer a) !! [9%N] = Some start_idx ∧
    word_index (khm_tokenizer a) !! [10%N] = Some end_idx ∧
    greedy_loop a enc start_idx end_idx
      = (Ok (decoder_seq, confidences), (encode_decode a word cleaned).2) ∧
    out = finish a word end_idx decoder_seq confidences.
Proof.
  unfold encode_decode. rewrite W_bind_eq. cbn [lift fst snd app].
  destruct (texts_to_sequences _ _) as [enc_seq|?]; [|done].
  rewrite W_bind_eq. cbn [lift fst snd app].
  destruct (_pad_sequences _ _ _) as [enc_padded|?]; [|done].
  destruct (word_index _ !! [9%N]) as [start_idx|] eqn:Hs; [|intros [= <-]; by left].
  destruct (word_index _ !! [10%N]) as [end_idx|] eqn:He; [|intros [= <-]; by left].
  rewrite W_bind_eq.
  destruct (greedy_loop a enc_padded start_idx end_idx) as [[[dseq confs]|?] evs] eqn:Hloop;
    cbn [fst snd mret W_ret]; [|done].
  intros [= <-]. right. exists enc_padded, start_idx, end_idx, dseq, confs.
  by rewrite app_nil_r.
Qed.




(** ** The claims *)

Lemma decode_loop_until_end (iw : gmap Z (list N)) (end_idx : Z) (idxs : list Z)
    (decoded_chars : list str) :
  decode_loop iw end_idx idxs decoded_chars
  = decoded_chars ++ ((λ idx, default [] (iw !! idx)) <$> until_end end_idx idxs).
Proof.
  revert decoded_chars. induction idxs as [|idx rest IH]; intros acc;
    cbn [decode_loop until_end].
  - by rewrite app_nil_r.
  - destruct (decide (idx = end_idx)); cbn [fmap list_fmap].
    + by rewrite app_nil_r.
    + by rewrite IH, <- app_assoc.
Qed.

Lemma until_end_stop (end_idx : Z) (xs rest : list Z) :
  end_idx ∉ xs → until_end end_idx (xs ++ end_idx :: rest) = xs.
Proof.
  induction xs as [|x xs IH]; intros Hnotin; cbn [until_end app].
  - by rewrite decide_True.
  - apply not_elem_of_cons in Hnotin as [Hx Hxs].
    rewrite decide_False by done. by rewrite IH.
Qed.

Lemma until_end_all (end_idx : Z) (xs : list Z) :
  end_idx ∉ xs → until_end end_idx xs = xs.
Proof.
  induction xs as [|x xs IH]; intros Hnotin; cbn [until_end]; [done|].
  apply not_elem_of_cons in Hnotin as [Hx Hxs].
  rewrite decide_False by done. by rewrite IH.
Qed.

(** C4. The decoded string: skip the start token, stop before the first end
    token, map each index through the target vocabulary (an unmapped index
    gives the empty string), concatenate without separator. *)
Theorem decoded_string_construction (a : Assets) (eng_input : str) (end_idx : Z)
    (decoder_seq : list Z) (confidences : list Q) :
  let iw := index_word (khm_tokenizer a) in
  let tok := λ idx, default [] (iw !! idx) in
  let result := py_join (decode_loop iw end_idx (drop 1 decoder_seq) []) in
  result = decoded_spec iw end_idx decoder_seq ∧
  (∀ start xs rest, end_idx ∉ xs →
     decoded_spec iw end_idx (start :: xs ++ end_idx :: rest) = concat (tok <$> xs) ∧
     decoded_spec iw end_idx (start :: xs) = concat (tok <$> xs)) ∧
  (finish a eng_input end_idx decoder_seq confidences).1
  = if bool_decide (result = []) || str_isspace result then bracket eng_input else result.
Proof.
  cbv zeta. split; [|split].
  - unfold decoded_spec, py_join. by rewrite decode_loop_until_end.
  - intros start xs rest Hnotin. unfold decoded_spec. rewrite !skipn_cons, !drop_0.
    by rewrite until_end_stop, until_end_all.
  - unfold finish. by destruct (_ || _).
Qed.

(** C3. The greedy loop makes at most [max_khm_len + 10] steps, one forward
    pass each, and always stops; a step leaves the loop on the end token, on
    the last allowed iteration, or when the time index is outside the model
    output (then without raising and without changing the state); the
    decoder sequence never has more than [max_khm_len + 11] elements. *)
Theorem greedy_loop_bounded (a : Assets) (enc : list (list Z)) (start_idx end_idx : Z) :
  let r := greedy_loop a enc start_idx end_idx in
  forward_passes r.2 ≤ max_khm_len a + 10 ∧
  length r.2 = forward_passes r.2 ∧
  match r.1 with
  | Ok (decoder_seq, confidences) =>
      1 ≤ length decoder_seq ≤ max_khm_len a + 11 ∧
      length decoder_seq = S (length confidences) ∧
      length confidences ≤ forward_passes r.2
  | Raise _ => True
  end ∧
  (∀ n, match (for_range n 0 (greedy_body a enc end_idx) ([start_idx], [])).1 with
        | Ok (decoder_seq, _) =>
            length decoder_seq ≤ Nat.min n (max_khm_len a + 10) + 1
        | Raise _ => True
        end) ∧
  (∀ t decoder_seq confidences,
     let dec := [pad_spec decoder_seq (max_khm_len a + 1) true] in
     let step := greedy_body a enc end_idx t (decoder_seq, confidences) in
     let time_index := (Z.of_nat (length decoder_seq) - 1)%Z in
     step.2 = [EvForward enc dec] ∧
     match model_predict a enc dec with
     | Raise e => step.1 = Raise e
     | Ok preds =>
         if decide (Z.of_nat (shape1 preds) ≤ time_index)%Z
         then step.1 = Ok (Break, (decoder_seq, confidences))
         else match step.1 with
              | Raise _ => True
              | Ok (fl, (decoder_seq', confidences')) =>
                  ∃ ti next : nat,
                    np_axis_index time_index (shape1 preds) = Ok ti ∧
                    next < shape2 preds ∧
                    decoder_seq' = decoder_seq ++ [Z.of_nat next] ∧
                    confidences' = confidences ++ [item preds 0 ti next] ∧
                    (fl = Break ↔ Z.of_nat next = end_idx ∨ t = max_khm_len a + 9)
              end
     end).
Proof.
  cbv zeta. unfold greedy_loop.
  pose proof (for_range_bounds a enc end_idx (max_khm_len a + 10) 0 [start_idx] [])
    as [Hev Hres].
  pose proof (for_range_events a enc end_idx (max_khm_len a + 10) 0 ([start_idx], []))
    as Hfw.
  cbv zeta in Hev, Hres.
  split; [done|]. split; [symmetry; by apply forward_only_length|]. split.
  { destruct (for_range _ _ _ _).1 as [[dseq confs]|]; [|done].
    cbn [length] in Hres. destruct Hres as (? & ? & ? & ? & Hlen).
    specialize (Hlen ltac:(lia)). lia. }
  split.
  - intros n.
    pose proof (for_range_bounds a enc end_idx n 0 [start_idx] []) as [_ Hn].
    cbv zeta in Hn.
    destruct (for_range n _ _ _).1 as [[dseq confs]|]; [|done].
    cbn [length] in Hn. destruct Hn as (_ & _ & _ & _ & Hlen).
    specialize (Hlen ltac:(lia)). lia.
  - intros t decoder_seq confidences. apply greedy_body_cases.
Qed.


(** C2, amended. For a word whose normalisation is not empty, if the target
    vocabulary lacks the start or the end token, single-word decode returns
    the bracket-wrapped echo with confidence 0, as a value and without a
    forward pass: the only events are the call of the engine and, on a
    loader that was not initialised, the loading. *)
Theorem missing_control_token_fallback (env : Env) (a : Assets) (word : str) :
  clean_text env word false ≠ [] →
  word_index (khm_tokenizer a) !! [9%N] = None ∨
  word_index (khm_tokenizer a) !! [10%N] = None →
  predict_khmer_with_confidence env word (Ready a)
  = ((Ok (bracket word, 0%Q), [EvEngine word]), Ready a) ∧
  translate_single_word env word (Ready a)
  = ((Ok (bracket word, 0%Q), [EvEngine word]), Ready a) ∧
  (artifacts env = Ok a →
   translate_single_word env word Uninitialized
   = ((Ok (bracket word, 0%Q), [EvEngine word; EvInitialize]), Ready a)).
Proof.
  intros Hclean Hmiss.
  assert (length (clean_text env word false) ≠ 0) as Hlen
    by (by destruct (clean_text _ _ _)).
  assert (guarded a word (clean_text env word false) = (Ok (bracket word, 0%Q), []))
    as Hguard.
  { unfold guarded. rewrite try_except_fallback.
    destruct (encode_decode_missing_token a word (clean_text env word false) Hmiss)
      as [-> [-> | [e ->]]]; done. }
  assert (predict_khmer_with_confidence env word (Ready a)
          = ((Ok (bracket word, 0%Q), [EvEngine word]), Ready a)) as Hp.
  { rewrite predict_ready, decide_False by done. cbv zeta. by rewrite Hguard. }
  split; [done|]. split.
  - unfold translate_single_word. rewrite try_except_M_eq. by rewrite Hp.
  - intros Hload. unfold translate_single_word. rewrite try_except_M_eq.
    rewrite (predict_uninitialized_ok env word a Hload), decide_False by done.
    cbv zeta. by rewrite Hguard.
Qed.


(** C8. A text without words (empty, or all whitespace) translates to the
    empty result: empty translation, no per-word entry, confidence 0, word
    count 0; the engine is not called and the loader is left as it was. *)
Theorem translate_text_no_words (env : Env) (text : str) (self : ModelLoader) :
  py_split text = [] →
  forallb py_isspace text = true ∧
  translate_text env text self
  = ((Ok {| input_text := text; translation := []; word_translations := [];
            average_confidence := 0%Q; word_count := 0 |}, []), self).
Proof.
  intros Hwords. split; [by apply py_split_nil|].
  unfold translate_text. by rewrite decide_True.
Qed.

(** C9. A word whose normalisation is empty decodes to the empty string with
    confidence 0, and the model is not run: the only events are the call of
    the engine and, on a loader that was not initialised, the loading. *)
Theorem empty_normalization_short_circuit (env : Env) (a : Assets) (word : str) :
  clean_text env word false = [] →
  predict_khmer_with_confidence env word (Ready a)
  = ((Ok ([], 0%Q), [EvEngine word]), Ready a) ∧
  translate_single_word env word (Ready a)
  = ((Ok ([], 0%Q), [EvEngine word]), Ready a) ∧
  (artifacts env = Ok a →
   translate_single_word env word Uninitialized
   = ((Ok ([], 0%Q), [EvEngine word; EvInitialize]), Ready a)).
Proof.
  intros Hclean.
  assert (predict_khmer_with_confidence env word (Ready a)
          = ((Ok ([], 0%Q), [EvEngine word]), Ready a)) as Hp.
  { rewrite predict_ready, Hclean. by rewrite decide_True. }
  split; [done|]. split.
  - unfold translate_single_word. rewrite try_except_M_eq. by rewrite Hp.
  - intros Hload. unfold translate_single_word. rewrite try_except_M_eq.
    rewrite (predict_uninitialized_ok env word a Hload), Hclean.
    by rewrite decide_True.
Qed.





(** ** The toy engine *)


Example toy_greedy_loop :
  (greedy_loop toy_assets [[2; 3; 0; 0]%Z] 1 2).1
  = Ok ([1; 3; 4; 2]%Z, [9 # 10; 4 # 5; 1]%Q).
Proof. vm_compute. reflexivity. Qed.

Example toy_decode :
  single_word_decode toy_env Uninitialized (lit "Ab") = ([6016; 6017]%N, 90%Q).
Proof. vm_compute. reflexivity. Qed.

Example clean_text_example :
  clean_text toy_env (lit "Hello World 123!") false = lit "hello world ".
Proof. vm_compute. reflexivity. Qed.

(** ** The claims on the toy engine *)


Lemma decoded_string_construction_witness :
  (2%Z ∉ [3; 4]%Z) ∧
  decoded_spec (index_word toy_khm) 2 [1; 3; 4; 2; 3]%Z = [6016; 6017]%N ∧
  decoded_spec (index_word toy_khm) 2 [1; 3; 4]%Z = [6016; 6017]%N.
Proof.
  assert (2%Z ∉ [3; 4]%Z) as Hnotin.
  { intros Hin. by repeat (apply elem_of_cons in Hin as [Hin|Hin]; [discriminate|]);
      apply elem_of_nil in Hin. }
  split; [exact Hnotin|].
  destruct (decoded_string_construction toy_assets (lit "ab") 2 [1; 3; 4; 2]%Z [])
    as (_ & Hstop & _).
  destruct (Hstop 1%Z [3; 4]%Z [3%Z] Hnotin) as [Hend Hall].
  split; [exact Hend | exact Hall].
Defined.


Lemma missing_control_token_fallback_witness :
  clean_text toy_env (lit "ab") false ≠ [] ∧
  word_index (khm_tokenizer no_start_assets) !! [9%N] = None ∧
  translate_single_word toy_env (lit "ab") (Ready no_start_assets)
  = ((Ok (bracket (lit "ab"), 0%Q), [EvEngine (lit "ab")]), Ready no_start_assets).
Proof.
  assert (clean_text toy_env (lit "ab") false ≠ []) as Hclean
    by (vm_compute; discriminate).
  assert (word_index (khm_tokenizer no_start_assets) !! [9%N] = None) as Hmiss
    by (vm_compute; reflexivity).
  split; [exact Hclean|]. split; [exact Hmiss|].
  apply (missing_control_token_fallback toy_env no_start_assets (lit "ab") Hclean
           (or_introl Hmiss)).
Defined.

(** C2 as stated fails: the vocabulary has no start token, yet a word whose
    normalisation is empty decodes to the empty string, not to its
    bracket-wrapped echo. *)
Lemma missing_start_token_empty_normalization :
  word_index (khm_tokenizer no_start_assets) !! [9%N] = None ∧
  (translate_single_word toy_env (lit "123") (Ready no_start_assets)).1.1
  = Ok ([], 0%Q) ∧
  (predict_khmer_with_confidence toy_env (lit "123") (Ready no_start_assets)).1.1
  = Ok ([], 0%Q) ∧
  @Ok (str * Q) ([], 0%Q) ≠ Ok (bracket (lit "123"), 0%Q).
Proof. repeat split; try (vm_compute; reflexivity). discriminate. Qed.




Lemma translate_text_no_words_witness :
  py_split (lit "  ") = [] ∧
  translate_text toy_env (lit "  ") Uninitialized
  = ((Ok {| input_text := lit "  "; translation := []; word_translations := [];
            average_confidence := 0%Q; word_count := 0 |}, []), Uninitialized).
Proof.
  assert (py_split (lit "  ") = []) as Hsplit by (vm_compute; reflexivity).
  split; [exact Hsplit|].
  apply (translate_text_no_words toy_env (lit "  ") Uninitialized Hsplit).
Defined.

Lemma empty_normalization_short_circuit_witness :
  clean_text toy_env (lit "123") false = [] ∧
  translate_single_word toy_env (lit "123") (Ready toy_assets)
  = ((Ok ([], 0%Q), [EvEngine (lit "123")]), Ready toy_assets) ∧
  translate_single_word toy_env (lit "123") Uninitialized
  = ((Ok ([], 0%Q), [EvEngine (lit "123"); EvInitialize]), Ready toy_assets).
Proof.
  assert (clean_text toy_env (lit "123") false = []) as Hclean
    by (vm_compute; reflexivity).
  split; [exact Hclean|].
  destruct (empty_normalization_short_circuit toy_env toy_assets (lit "123") Hclean)
    as (_ & Hready & Hlazy).
  split; [exact Hready|]. apply Hlazy. reflexivity.
Defined.

(** * Further properties *)

(** ** Padding: the exact outcome *)




(** ** Strings: [strip] and [split] *)

Lemma drop_while_nil {A} (p : A → bool) (l : list A) :
  drop_while p l = [] ↔ forallb p l = true.
Proof.
  induction l as [|x l IH]; cbn; [done|].
  destruct (p x); cbn; [done|]. split; done.
Qed.

Lemma drop_while_head {A} (p : A → bool) (l : list A) (x : A) :
  head (drop_while p l) = Some x → p x = false.
Proof.
  induction l as [|y l IH]; cbn; [done|].
  destruct (p y) eqn:Hy; [done|]. cbn. by intros [= <-].
Qed.

Lemma drop_while_last {A} (p : A → bool) (l : list A) (x : A) :
  last (drop_while p l) = Some x → last l = Some x.
Proof.
  induction l as [|y l IH]; cbn [drop_while]; [done|].
  destruct (p y); [|done].
  intros H. rewrite last_cons, (IH H). done.
Qed.

Lemma forallb_app_true {A} (p : A → bool) (l1 l2 : list A) :
  forallb p (l1 ++ l2) = true ↔ forallb p l1 = true ∧ forallb p l2 = true.
Proof. rewrite forallb_app. apply andb_true_iff. Qed.

(** [strip] leaves nothing exactly on the whitespace-only strings. *)
Lemma py_strip_nil (s : str) : py_strip s = [] ↔ forallb py_isspace s = true.
Proof.
  unfold py_strip. split.
  - intros H. apply (f_equal reverse) in H. rewrite reverse_involutive in H.
    cbn in H. apply drop_while_nil in H.
    destruct (drop_while py_isspace s) as [|c rest] eqn:Hs.
    + by apply drop_while_nil.
    + pose proof (drop_while_head py_isspace s c) as Hc. rewrite Hs in Hc.
      specialize (Hc eq_refl).
      rewrite reverse_cons in H. apply forallb_app_true in H as [_ H].
      cbn in H. by rewrite Hc in H.
  - intros H. apply drop_while_nil in H. rewrite H. done.
Qed.

Lemma py_strip_head (s : str) (c : N) :
  head (py_strip s) = Some c → py_isspace c = false.
Proof.
  unfold py_strip. rewrite head_reverse. intros Hlast.
  apply drop_while_last in Hlast. rewrite last_reverse in Hlast.
  by eapply drop_while_head.
Qed.

Lemma py_strip_last (s : str) (c : N) :
  last (py_strip s) = Some c → py_isspace c = false.
Proof.
  unfold py_strip. rewrite last_reverse. apply drop_while_head.
Qed.

Lemma split_from_concat (cur s : str) :
  concat (split_from cur s) = reverse cur ++ filter (λ c, negb (py_isspace c)) s.
Proof.
  revert cur. induction s as [|c s IH]; intros cur; cbn [split_from].
  - rewrite filter_nil, app_nil_r.
    destruct (decide (cur = [])) as [->|]; [reflexivity|]. cbn. by rewrite app_nil_r.
  - rewrite filter_cons. destruct (py_isspace c) eqn:Hc; cbn [negb].
    + rewrite (decide_False (P := Is_true false)) by (cbn; tauto).
      destruct (decide (cur = [])) as [->|]; cbn [concat]; by rewrite IH.
    + rewrite (decide_True (P := Is_true true)) by exact I.
      rewrite IH, reverse_cons, <- app_assoc. done.
Qed.

Lemma split_from_words (cur s : str) :
  forallb (λ c, negb (py_isspace c)) cur = true →
  Forall (λ w, w ≠ [] ∧ forallb (λ c, negb (py_isspace c)) w = true)
         (split_from cur s).
Proof.
  assert (∀ cur : str, cur ≠ [] → forallb (λ c, negb (py_isspace c)) cur = true →
          reverse cur ≠ [] ∧ forallb (λ c, negb (py_isspace c)) (reverse cur) = true)
    as Hrev.
  { intros cur' Hne Hall. split.
    - intros H. apply (f_equal reverse) in H. by rewrite reverse_involutive in H.
    - rewrite forallb_forall in Hall |- *. intros c Hc. apply Hall.
      apply list_elem_of_In. apply list_elem_of_In in Hc.
      by rewrite elem_of_reverse in Hc. }
  revert cur. induction s as [|c s IH]; intros cur Hcur; cbn [split_from].
  - destruct (decide (cur = [])); [constructor|].
    constructor; [by apply Hrev|constructor].
  - destruct (py_isspace c) eqn:Hc.
    + destruct (decide (cur = [])); [by apply IH|].
      constructor; [by apply Hrev|by apply IH].
    + apply IH. cbn. by rewrite Hc.
Qed.

Lemma split_into_words_eq (text : str) : split_into_words text = py_split text.
Proof.
  unfold split_into_words.
  pose proof (split_from_words [] text eq_refl) as Hwords. fold (py_split text) in Hwords.
  induction Hwords as [|w ws [Hw _] _ IH]; [done|].
  rewrite filter_cons, decide_True by done. by rewrite IH.
Qed.

Lemma split_into_words_words_nil (text : str) :
  split_into_words text = [] → py_strip text = [].
Proof. rewrite split_into_words_eq, py_split_nil, py_strip_nil. done. Qed.

(** X2. [split_into_words] is [text.split()]: its filter removes nothing, since
    every word is non-empty; the words hold no whitespace, and together
    they are the text without its whitespace.  There is no word exactly
    when [strip] leaves nothing. *)
Theorem split_into_words_spec (text : str) :
  split_into_words text = py_split text ∧
  Forall (λ w, w ≠ [] ∧ forallb (λ c, negb (py_isspace c)) w = true) (py_split text) ∧
  concat (split_into_words text) = filter (λ c, negb (py_isspace c)) text ∧
  (split_into_words text = [] ↔ py_strip text = []).
Proof.
  assert (Forall (λ w, w ≠ [] ∧ forallb (λ c, negb (py_isspace c)) w = true)
                 (py_split text)) as Hwords by (by apply split_from_words).
  pose proof (split_into_words_eq text) as Heq.
  split; [exact Heq|]. split; [exact Hwords|]. split.
  - rewrite Heq. unfold py_split. by rewrite split_from_concat.
  - by rewrite Heq, py_split_nil, py_strip_nil.
Qed.

(** ** Normalisation and validation *)

Lemma drop_while_length {A} (p : A → bool) (l : list A) :
  length (drop_while p l) ≤ length l.
Proof.
  induction l as [|x l IH]; cbn; [done|]. destruct (p x); cbn; lia.
Qed.

Lemma py_strip_length (s : str) : length (py_strip s) ≤ length s.
Proof.
  unfold py_strip. rewrite length_reverse.
  etrans; [apply drop_while_length|]. rewrite length_reverse.
  apply drop_while_length.
Qed.

Lemma filter_bool_Forall (p : N → bool) (s : str) :
  Forall (λ c, p c = true) (filter (λ c, p c) s).
Proof.
  apply Forall_forall. intros c Hc. apply list_elem_of_filter in Hc as [Hc _].
  by apply Is_true_true.
Qed.

Lemma filter_bool_nil (p : N → bool) (s : str) :
  filter (λ c, p c) s = [] ↔ forallb (λ c, negb (p c)) s = true.
Proof.
  induction s as [|c s IH]; [done|].
  rewrite filter_cons. cbn [forallb]. destruct (p c) eqn:Hc; cbn [negb andb].
  - rewrite (decide_True (P := Is_true true)) by exact I. done.
  - rewrite (decide_False (P := Is_true false)) by (cbn; tauto). done.
Qed.

(** X3. [ModelLoader.clean_text], for every lowercasing of the interpreter.  In
    English mode the result holds only the letters a to z and whitespace,
    is no longer than the lowercased text, and is empty exactly when the
    stripped lowercased text holds no such character.  In Khmer mode the
    result is only lowercased and stripped: it neither starts nor ends with
    whitespace, and it is empty exactly on the whitespace-only texts. *)
Theorem clean_text_alphabet (env : Env) (text : str) :
  Forall (λ c, is_lower_ascii c || py_isspace c = true) (clean_text env text false) ∧
  length (clean_text env text false) ≤ length (str_lower env text) ∧
  (clean_text env text false = [] ↔
   forallb (λ c, negb (is_lower_ascii c || py_isspace c))
           (py_strip (str_lower env text)) = true) ∧
  (∀ c, head (clean_text env text true) = Some c ∨
        last (clean_text env text true) = Some c → py_isspace c = false) ∧
  (clean_text env text true = [] ↔ forallb py_isspace (str_lower env text) = true).
Proof.
  unfold clean_text. cbn [negb]. unfold keep_letters_and_space.
  split; [apply (filter_bool_Forall (λ c, is_lower_ascii c || py_isspace c))|].
  split.
  { etrans; [apply length_filter|]. apply py_strip_length. }
  split; [apply (filter_bool_nil (λ c, is_lower_ascii c || py_isspace c))|].
  split.
  - intros c [Hc|Hc]; [by eapply py_strip_head|by eapply py_strip_last].
  - apply py_strip_nil.
Qed.

(** X4. [DataPreprocessor.clean_input] agrees with [ModelLoader.clean_text] on
    English text; on Khmer text it keeps, of what [clean_text] returns, only
    the Khmer block and whitespace, so the two differ there. *)
Theorem clean_input_alphabet (env : Env) (text : str) :
  clean_input env text false = clean_text env text false ∧
  clean_input env text true
  = filter (λ c, is_khmer_block c || py_isspace c) (clean_text env text true) ∧
  Forall (λ c, is_khmer_block c || py_isspace c = true) (clean_input env text true) ∧
  Forall (λ c, is_lower_ascii c || py_isspace c = true) (clean_input env text false) ∧
  length (clean_input env text true) ≤ length (clean_text env text true).
Proof.
  unfold clean_input, clean_text. cbn [negb]. unfold keep_letters_and_space.
  split; [done|]. split; [done|]. split.
  - apply (filter_bool_Forall (λ c, is_khmer_block c || py_isspace c)).
  - split; [apply (filter_bool_Forall (λ c, is_lower_ascii c || py_isspace c))|].
    apply length_filter.
Qed.

(** X5. [DataPreprocessor.validate_input] accepts a text exactly when [strip]
    leaves something of it, it has at most [max_length] code points and it
    holds a letter of [[a-zA-Z]]; an accepted text has at least one word,
    and a rejection always carries a message. *)
Theorem validate_input_accepts (text : str) (max_length : Z) :
  (validate_input text max_length = (true, []) ↔
   py_strip text ≠ [] ∧ (Z.of_nat (length text) ≤ max_length)%Z ∧
   existsb is_ascii_letter text = true) ∧
  ((validate_input text max_length).1 = true → split_into_words text ≠ []) ∧
  ((validate_input text max_length).1 = false → (validate_input text max_length).2 ≠ []).
Proof.
  assert (text = [] → py_strip text = []) as Hnil by (by intros ->).
  unfold validate_input.
  destruct (decide (py_strip text = [])) as [Hstrip|Hstrip].
  { rewrite (bool_decide_eq_true_2 (py_strip text = [])), orb_true_r by done.
    cbn. repeat split; try done. by intros [? _]. }
  rewrite (bool_decide_eq_false_2 (text = [])) by auto.
  rewrite (bool_decide_eq_false_2 (py_strip text = [])) by done. cbn [orb].
  assert (split_into_words text ≠ []) as Hwords.
  { intros H. by apply split_into_words_words_nil in H. }
  destruct (decide (max_length < Z.of_nat (length text))%Z) as [Hlong|Hlen].
  { cbn. repeat split; try done. intros (_ & ? & _). lia. }
  destruct (existsb is_ascii_letter text) eqn:Hletter; cbn.
  - repeat split; try done. lia.
  - repeat split; try done. by intros (_ & _ & ?).
Qed.

(** ** The greedy step selects a maximum *)

Lemma argmax_from_spec (xs pre : list Q) (best : nat) (v : Q) :
  pre !! best = Some v →
  (∀ i x, pre !! i = Some x → (x <= v)%Q) →
  (∀ i x, i < best → pre !! i = Some x → (x < v)%Q) →
  ∃ w, (pre ++ xs) !! argmax_from best v (length pre) xs = Some w ∧
       (∀ i x, (pre ++ xs) !! i = Some x → (x <= w)%Q) ∧
       (∀ i x, i < argmax_from best v (length pre) xs →
               (pre ++ xs) !! i = Some x → (x < w)%Q).
Proof.
  revert pre best v. induction xs as [|x xs IH]; intros pre best v Hbest Hle Hlt;
    cbn [argmax_from].
  - rewrite app_nil_r. eauto.
  - assert (best < length pre) as Hb by (by eapply lookup_lt_Some).
    replace (S (length pre)) with (length (pre ++ [x]))
      by (rewrite length_app; cbn; lia).
    rewrite (cons_middle x pre xs), app_assoc.
    destruct (Qle_bool x v) eqn:Hx.
    + apply Qle_bool_iff in Hx. apply IH.
      * by rewrite lookup_app_l.
      * intros i y Hy. apply lookup_app_Some in Hy as [Hy|[_ Hy]]; [by eapply Hle|].
        apply list_lookup_singleton_Some in Hy as [_ <-]. done.
      * intros i y Hi Hy. rewrite lookup_app_l in Hy by lia. by eapply Hlt.
    + assert (v < x)%Q as Hvx.
      { apply Qnot_le_lt. intros H. apply Qle_bool_iff in H. congruence. }
      apply IH.
      * rewrite lookup_app_r by lia. by rewrite Nat.sub_diag.
      * intros i y Hy. apply lookup_app_Some in Hy as [Hy|[_ Hy]].
        -- apply Qlt_le_weak. eapply Qle_lt_trans; [by eapply Hle|done].
        -- apply list_lookup_singleton_Some in Hy as [_ <-]. apply Qle_refl.
      * intros i y Hi Hy. rewrite lookup_app_l in Hy by lia.
        eapply Qle_lt_trans; [by eapply Hle|done].
Qed.

(** [np.argmax] returns the first index of a largest element. *)
Lemma np_argmax_spec (xs : list Q) (n : nat) :
  np_argmax xs = Ok n →
  ∃ w, xs !! n = Some w ∧
       (∀ i x, xs !! i = Some x → (x <= w)%Q) ∧
       (∀ i x, i < n → xs !! i = Some x → (x < w)%Q).
Proof.
  destruct xs as [|x xs]; cbn [np_argmax]; [done|]. intros [= <-].
  apply (argmax_from_spec xs [x] 0 x).
  - done.
  - intros [|i] y; cbn; [intros [= <-]; apply Qle_refl|done].
  - intros i y Hi. lia.
Qed.

(** X6. A step of the greedy loop that extends the decoder sequence appends the
    first index whose probability, in the distribution the model gives for
    the current time index, is largest, and records that probability as the
    confidence of the step. *)
Theorem greedy_step_selects_maximum (a : Assets) (enc : list (list Z)) (end_idx : Z)
    (t : nat) (decoder_seq decoder_seq' : list Z) (confidences confidences' : list Q)
    (fl : flow) :
  (greedy_body a enc end_idx t (decoder_seq, confidences)).1
  = Ok (fl, (decoder_seq', confidences')) →
  decoder_seq' ≠ decoder_seq →
  ∃ preds ti next,
    model_predict a enc [pad_spec decoder_seq (max_khm_len a + 1) true] = Ok preds ∧
    np_axis_index (Z.of_nat (length decoder_seq) - 1) (shape1 preds) = Ok ti ∧
    next < shape2 preds ∧
    decoder_seq' = decoder_seq ++ [Z.of_nat next] ∧
    confidences' = confidences ++ [item preds 0 ti next] ∧
    (∀ k, k < shape2 preds → (item preds 0 ti k <= item preds 0 ti next)%Q) ∧
    (∀ k, k < next → (item preds 0 ti k < item preds 0 ti next)%Q).
Proof.
  unfold greedy_body, forward. rewrite pad_decoder_seq.
  rewrite !W_bind_eq. simpl.
  destruct (model_predict a enc _) as [preds|e]; simpl; [|done].
  destruct (decide (Z.of_nat (shape1 preds) ≤ Z.of_nat (length decoder_seq) - 1)%Z)
    as [Hoob|Hin]; simpl.
  { intros [= _ <- _] Hne. done. }
  unfold np_index2.
  destruct (np_axis_index 0 (shape0 preds)) as [i'|?] eqn:Hi; simpl; [|done].
  assert (i' = 0) as ->.
  { unfold np_axis_index in Hi. repeat case_decide; simplify_eq; lia. }
  destruct (np_axis_index _ (shape1 preds)) as [ti|?] eqn:Hti; simpl; [|done].
  destruct (np_argmax _) as [next|?] eqn:Hmax; simpl; [|done].
  pose proof (np_argmax_lt _ _ Hmax) as Hnext.
  rewrite length_fmap, length_seq in Hnext.
  destruct (np_argmax_spec _ _ Hmax) as (w & Hw & Hle & Hlt).
  rewrite list_lookup_fmap, lookup_seq_lt in Hw by done. cbn in Hw.
  injection Hw as <-.
  rewrite list_lookup_fmap, lookup_seq_lt by done. cbn.
  intros Hres _.
  assert (decoder_seq' = decoder_seq ++ [Z.of_nat next] ∧
          confidences' = confidences ++ [item preds 0 ti next]) as [-> ->].
  { destruct (decide (Z.of_nat next = end_idx ∨ t = max_khm_len a + 9));
      cbn in Hres; by simplify_eq. }
  exists preds, ti, next. repeat split; try done.
  - intros k Hk. apply (Hle k).
    rewrite list_lookup_fmap, lookup_seq_lt by done. done.
  - intros k Hk. apply (Hlt k); [done|].
    rewrite list_lookup_fmap, lookup_seq_lt by lia. done.
Qed.

(** ** What the model is shown *)

Lemma for_range_forward_inputs (a : Assets) (enc : list (list Z)) (end_idx : Z)
    (n t : nat) (st : list Z * list Q) :
  Forall (λ ev, ∃ decoder_seq,
            ev = EvForward enc [pad_spec decoder_seq (max_khm_len a + 1) true])
         (for_range n t (greedy_body a enc end_idx) st).2.
Proof.
  revert t st. induction n as [|n IH]; intros t [decoder_seq confidences]; cbn [for_range].
  { constructor. }
  rewrite W_bind_eq.
  pose proof (greedy_body_cases a enc end_idx t decoder_seq confidences) as [Hev _].
  cbv zeta in Hev.
  destruct (greedy_body a enc end_idx t (decoder_seq, confidences))
    as [[[fl st']|e] evs]; cbn [fst snd] in *; subst evs.
  - destruct fl; cbn [fst snd].
    + constructor; [by eauto|]. apply IH.
    + repeat constructor. by eauto.
  - repeat constructor. by eauto.
Qed.

Lemma encode_chars_lookup (wi : gmap (list N) Z) (chars : str) (i : nat) (c : N) :
  chars !! i = Some c →
  encode_chars wi chars !! i
  = Some (default (if decide (c = 32%N) then 1%Z else 0%Z) (wi !! [c])).
Proof.
  intros Hc. unfold encode_chars. rewrite list_lookup_fmap, Hc. cbn.
  by destruct (wi !! [c]).
Qed.

(** X7. Within one decode the model always receives the same encoder tensor:
    the back-padded word-level encoding when the tokenizer gives one, and
    otherwise the back-padded character encoding, which has one index per
    character of the normalised word (the vocabulary index, else 1 for a
    space and 0 for any other character); every decoder tensor is the
    current decoder sequence padded at the back to [max_khm_len + 1]. *)
Theorem encoder_input_fixed (a : Assets) (word cleaned : str) :
  let wi := word_index (eng_tokenizer a) in
  let enc :=
    match texts_to_sequences (eng_tokenizer a) [cleaned] with
    | Ok enc_seq =>
        (λ seq, pad_spec seq (max_eng_len a) true)
          <$> (if decide (enc_seq = [] ∨ length (default [] (enc_seq !! 0)) = 0)
               then [encode_chars wi cleaned] else enc_seq)
    | Raise _ => []
    end in
  Forall (λ ev, ∃ decoder_seq,
            ev = EvForward enc [pad_spec decoder_seq (max_khm_len a + 1) true])
         (encode_decode a word cleaned).2 ∧
  length (encode_chars wi cleaned) = length cleaned ∧
  (∀ i c, cleaned !! i = Some c →
     encode_chars wi cleaned !! i
     = Some (default (if decide (c = 32%N) then 1%Z else 0%Z) (wi !! [c]))).
Proof.
  cbv zeta. split; [|split].
  - unfold encode_decode. rewrite W_bind_eq. cbn [lift fst snd app].
    destruct (texts_to_sequences _ _) as [enc_seq|?]; [|constructor].
    rewrite W_bind_eq. cbn [lift fst snd app].
    rewrite pad_sequences_back.
    destruct (word_index _ !! [9%N]) as [start_idx|]; [|constructor].
    destruct (word_index _ !! [10%N]) as [end_idx|]; [|constructor].
    rewrite W_bind_eq. unfold greedy_loop.
    match goal with
    | |- context [for_range ?n ?t (greedy_body a ?e end_idx) ?st] =>
        pose proof (for_range_forward_inputs a e end_idx n t st) as Hev;
        destruct (for_range n t (greedy_body a e end_idx) st) as [[out|?] evs]
    end; cbn [fst snd mret W_ret] in *; by rewrite ?app_nil_r.
  - unfold encode_chars. by rewrite length_fmap.
  - intros i c. apply encode_chars_lookup.
Qed.

(** ** The end token ends the sequence *)

Lemma for_range_end_last (a : Assets) (enc : list (list Z)) (end_idx : Z)
    (n t : nat) (decoder_seq : list Z) (confidences : list Q) :
  match (for_range n t (greedy_body a enc end_idx) (decoder_seq, confidences)).1 with
  | Ok (decoder_seq', _) =>
      ∃ new, decoder_seq' = decoder_seq ++ new ∧
             end_idx ∉ take (length new - 1) new
  | Raise _ => True
  end.
Proof.
  revert t decoder_seq confidences.
  induction n as [|n IH]; intros t decoder_seq confidences; cbn [for_range].
  { exists []. rewrite app_nil_r. split; [done|]. apply not_elem_of_nil. }
  rewrite W_bind_eq.
  pose proof (greedy_body_cases a enc end_idx t decoder_seq confidences) as [_ Hres].
  cbv zeta in Hres.
  destruct (greedy_body a enc end_idx t (decoder_seq, confidences))
    as [[[fl [dseq1 confs1]]|e] evs]; cbn [fst snd] in *; [|done].
  assert (fl = Break ∧ dseq1 = decoder_seq ∨
          ∃ next, dseq1 = decoder_seq ++ [next] ∧
                  (fl = Break ↔ next = end_idx ∨ t = max_khm_len a + 9)) as Hcase.
  { destruct (model_predict _ _ _) as [preds|?]; [|done].
    destruct (decide _).
    - left. by simplify_eq.
    - right. destruct Hres as (ti & next & _ & _ & -> & _ & Hfl). eauto. }
  clear Hres. destruct fl; cbn [fst snd].
  - destruct Hcase as [[? _]|(next & -> & Hfl)]; [done|].
    specialize (IH (S t) (decoder_seq ++ [next]) confs1).
    destruct (for_range n (S t) _ _).1 as [[dseq2 confs2]|]; [|done].
    destruct IH as (new & -> & Hnew).
    exists (next :: new). rewrite <- app_assoc. split; [done|].
    assert (next ≠ end_idx) as Hne.
    { intros ->. destruct Hfl as [_ Hfl]. by specialize (Hfl (or_introl eq_refl)). }
    destruct new as [|x new]; [apply not_elem_of_nil|].
    replace (length (next :: x :: new) - 1) with (S (length (x :: new) - 1))
      by (cbn [length]; lia).
    rewrite firstn_cons. apply not_elem_of_cons. by split.
  - destruct Hcase as [(_ & ->)|(next & -> & _)].
    + exists []. rewrite app_nil_r. split; [done|]. apply not_elem_of_nil.
    + exists [next]. split; [done|]. apply not_elem_of_nil.
Qed.

(** X8. In the sequence the greedy loop returns, the end token can only be the
    last element: the decoded string is made of all the generated tokens,
    less a final end token, and there are at most [max_khm_len + 10] of
    them. *)
Theorem greedy_loop_end_token_last (a : Assets) (enc : list (list Z))
    (start_idx end_idx : Z) (decoder_seq : list Z) (confidences : list Q) :
  (greedy_loop a enc start_idx end_idx).1 = Ok (decoder_seq, confidences) →
  ∃ toks,
    decoder_seq = start_idx :: toks ∧
    length toks ≤ max_khm_len a + 10 ∧
    (end_idx ∉ take (length toks - 1) toks) ∧
    (∀ iw : gmap Z (list N),
       decoded_spec iw end_idx decoder_seq
       = concat ((λ idx, default [] (iw !! idx))
                   <$> (if decide (last toks = Some end_idx)
                        then take (length toks - 1) toks else toks))).
Proof.
  intros Hloop. unfold greedy_loop in Hloop.
  pose proof (for_range_end_last a enc end_idx (max_khm_len a + 10) 0 [start_idx] [])
    as Hend.
  pose proof (for_range_bounds a enc end_idx (max_khm_len a + 10) 0 [start_idx] [])
    as [_ Hlen].
  cbv zeta in Hlen. rewrite Hloop in Hend, Hlen.
  destruct Hend as (toks & -> & Hnotin). exists toks.
  destruct Hlen as (_ & _ & _ & _ & Hlen). specialize (Hlen ltac:(lia)).
  cbn [length app] in Hlen.
  split; [done|]. split; [lia|]. split; [done|].
  intros iw. unfold decoded_spec. cbn [app]. rewrite skipn_cons, drop_0.
  f_equal. f_equal.
  destruct (last toks) as [x|] eqn:Hlast.
  - apply last_Some in Hlast as [init ->].
    rewrite length_app, Nat.add_sub in *. cbn [length] in *.
    rewrite take_app_length in *.
    destruct (decide (Some x = Some end_idx)) as [[= ->]|Hne].
    + by apply until_end_stop.
    + apply until_end_all. apply not_elem_of_app. split; [done|].
      apply not_elem_of_cons. split; [congruence|apply not_elem_of_nil].
  - apply last_None in Hlast as ->. by rewrite decide_False.
Qed.

(** ** The string of a single-word decode *)

Lemma bracket_not_blank (w : str) : bracket w ≠ [] ∧ str_isspace (bracket w) = false.
Proof.
  split; [done|]. unfold str_isspace, bracket.
  change (lit "[") with [91%N]. cbn [app forallb].
  change (py_isspace 91) with false. apply andb_false_r.
Qed.

Lemma finish_not_blank (a : Assets) (eng_input : str) (end_idx : Z)
    (decoder_seq : list Z) (confidences : list Q) :
  (finish a eng_input end_idx decoder_seq confidences).1 ≠ [] ∧
  str_isspace (finish a eng_input end_idx decoder_seq confidences).1 = false.
Proof.
  unfold finish.
  destruct (bool_decide _ || str_isspace _) eqn:Hblank; cbn [fst].
  - apply bracket_not_blank.
  - apply orb_false_iff in Hblank as [Hnil Hsp]. split; [|done].
    by apply bool_decide_eq_false_1 in Hnil.
Qed.

(** X9. The string that single-word decode returns is never whitespace only, and
    it is empty exactly when the normalisation of the word is empty on an
    engine whose artifacts are loaded or can be; the confidence is then 0.
    In every other case there is something to show: a decoded string that
    is not blank, or the bracket-wrapped echo. *)
Theorem single_word_decode_never_blank (env : Env) (self : ModelLoader) (word : str) :
  let out := single_word_decode env self word in
  str_isspace out.1 = false ∧
  (out.1 = [] ↔ clean_text env word false = [] ∧ engine_assets env self ≠ None) ∧
  (out.1 = [] → out.2 = 0%Q).
Proof.
  cbv zeta. rewrite single_word_decode_eq. unfold decode_with.
  destruct (engine_assets env self) as [a|].
  2: { destruct (bracket_not_blank word) as [Hne Hsp]. cbn [fst snd].
       repeat split; try done. by intros [_ ?]. }
  destruct (decide (length (clean_text env word false) = 0)) as [Hlen|Hlen].
  { apply length_zero_iff_nil in Hlen. cbn [fst snd]. repeat split; done. }
  assert (clean_text env word false ≠ []) as Hclean.
  { intros H. by rewrite H in Hlen. }
  assert (∀ out : str * Q,
            out.1 ≠ [] → str_isspace out.1 = false →
            str_isspace out.1 = false ∧
            (out.1 = [] ↔ clean_text env word false = [] ∧ Some a ≠ None) ∧
            (out.1 = [] → out.2 = 0%Q)) as Hgen.
  { intros out Hne Hsp. repeat split; try done. by intros [? _]. }
  unfold guarded. rewrite try_except_fallback. cbn [fst].
  destruct (encode_decode a word _).1 as [out|?] eqn:Hout.
  - destruct (encode_decode_Ok a word _ out Hout)
      as [->|(enc & start_idx & end_idx & dseq & confs & _ & _ & _ & ->)].
    + apply Hgen; apply bracket_not_blank.
    + apply Hgen; apply finish_not_blank.
  - apply Hgen; apply bracket_not_blank.
Qed.

(** ** Loading and forward passes of a translation *)

Lemma loads_cons (ev : event) (evs : list event) :
  loads (ev :: evs) = (if is_initialize ev then 1 else 0) + loads evs.
Proof.
  unfold loads. rewrite filter_cons.
  destruct (is_initialize ev) eqn:H; destruct (decide _) as [H'|H']; simpl; try done;
    by rewrite H in H'.
Qed.

Lemma loads_nil : loads [] = 0.
Proof. done. Qed.

Lemma loads_app (evs1 evs2 : list event) : loads (evs1 ++ evs2) = loads evs1 + loads evs2.
Proof. unfold loads. by rewrite filter_app, length_app. Qed.

#[local] Hint Rewrite forward_passes_cons forward_passes_nil forward_passes_app
  engine_calls_cons engine_calls_app loads_cons loads_nil loads_app : events.

Ltac count_all :=
  autorewrite with events in *; simpl is_forward in *; simpl is_engine_call in *;
  simpl is_initialize in *.

Lemma forward_only_loads (evs : list event) :
  Forall (λ ev, is_forward ev = true) evs → loads evs = 0.
Proof.
  induction 1 as [|ev evs Hev _ IH]; [done|].
  count_all. rewrite IH. by destruct ev.
Qed.

Lemma encode_decode_forward_bound (a : Assets) (word cleaned : str) :
  forward_passes (encode_decode a word cleaned).2 ≤ max_khm_len a + 10.
Proof.
  unfold encode_decode. rewrite W_bind_eq. cbn [lift fst snd app].
  destruct (texts_to_sequences _ _) as [enc_seq|?]; [|cbn; lia].
  rewrite W_bind_eq. cbn [lift fst snd app].
  destruct (_pad_sequences _ _ _) as [enc_padded|?]; [|cbn; lia].
  destruct (word_index _ !! [9%N]) as [start_idx|]; [|cbn; lia].
  destruct (word_index _ !! [10%N]) as [end_idx|]; [|cbn; lia].
  rewrite W_bind_eq.
  pose proof (for_range_bounds a enc_padded end_idx (max_khm_len a + 10) 0
                [start_idx] []) as [Hev _].
  cbv zeta in Hev. fold (greedy_loop a enc_padded start_idx end_idx) in Hev.
  destruct (greedy_loop a enc_padded start_idx end_idx) as [[out|?] evs];
    cbn [fst snd mret W_ret] in *; by rewrite ?app_nil_r.
Qed.

(** One word: where the loader is left, whether the artifacts were loaded,
    and how many forward passes were made. *)
Lemma translate_single_word_events (env : Env) (word : str) (self : ModelLoader) :
  let r := translate_single_word env word self in
  r.2 = loader_after env self ∧
  loads r.1.2 = (if _initialized self then 0 else 1) ∧
  forward_passes r.1.2 ≤ decode_budget env self.
Proof.
  unfold translate_single_word, loader_after, decode_budget. cbv zeta.
  rewrite try_except_M_eq. cbn [fst snd].
  destruct self as [|a]; cbn [engine_assets _initialized].
  - destruct (artifacts env) as [a|e] eqn:Hload.
    + rewrite (predict_uninitialized_ok env word a Hload).
      destruct (decide _); cbn [fst snd]; count_all; [split; [done|split; [done|lia]]|].
      rewrite guarded_events.
      rewrite (forward_only_loads _ (encode_decode_events a word _)).
      pose proof (encode_decode_forward_bound a word (clean_text env word false)).
      split; [done|]. split; [done|lia].
    + rewrite (predict_uninitialized_fail env word e Hload).
      cbn [fst snd]. count_all. done.
  - rewrite predict_ready.
    destruct (decide _); cbn [fst snd]; count_all; [split; [done|split; [done|lia]]|].
    rewrite guarded_events.
    rewrite (forward_only_loads _ (encode_decode_events a word _)).
    pose proof (encode_decode_forward_bound a word (clean_text env word false)).
    split; [done|]. split; [done|lia].
Qed.

Lemma loader_after_idem (env : Env) (self : ModelLoader) :
  loader_after env (loader_after env self) = loader_after env self ∧
  decode_budget env (loader_after env self) = decode_budget env self.
Proof.
  unfold loader_after, decode_budget. destruct self as [|a]; cbn; [|done].
  destruct (artifacts env) as [a|e] eqn:H; cbn; [done|]. by rewrite H.
Qed.

Lemma translate_loop_events (env : Env) (words : list str)
    (results : list WordTranslation) (total : Q) (self : ModelLoader) :
  let r := translate_loop env words results total self in
  r.2 = (if decide (words = []) then self else loader_after env self) ∧
  loads r.1.2 = load_count env self (length words) ∧
  forward_passes r.1.2 ≤ length words * decode_budget env self.
Proof.
  cbv zeta. revert results total self.
  induction words as [|word rest IH]; intros results total self; cbn [translate_loop].
  { cbn. unfold load_count. destruct self; [|done]. by destruct (artifacts env). }
  rewrite M_bind_eq.
  destruct (translate_single_word_decode env word self) as (Hout & _ & _).
  destruct (translate_single_word_events env word self) as (Hself & Hloads & Hfw).
  rewrite Hout. cbn [fst snd]. rewrite Hself.
  match goal with
  | |- context [translate_loop env rest ?res ?tot (loader_after env self)] =>
      specialize (IH res tot (loader_after env self));
      destruct (translate_loop env rest res tot (loader_after env self))
        as [[v evs] self'']
  end.
  cbn [fst snd] in *. destruct IH as (IHself & IHloads & IHfw).
  destruct (loader_after_idem env self) as [Hidem Hbudget].
  rewrite Hidem, Hbudget in *. count_all.
  rewrite decide_False by done. split.
  { rewrite IHself. by destruct (decide (rest = [])). }
  split; [|cbn [length]; lia].
  rewrite Hloads, IHloads. unfold load_count, loader_after. cbn [length].
  destruct self as [|a]; cbn [_initialized engine_assets]; [|done].
  destruct (artifacts env) as [a|e] eqn:Hload; [done|].
  rewrite ?Hload. lia.
Qed.

Lemma translate_text_run (env : Env) (text : str) (self : ModelLoader) :
  (translate_text env text self).1.2
  = (translate_loop env (py_split text) [] 0%Q self).1.2 ∧
  (translate_text env text self).2
  = (translate_loop env (py_split text) [] 0%Q self).2.
Proof.
  unfold translate_text.
  destruct (decide (py_split text = [])) as [->|Hwords]; [done|].
  rewrite M_bind_eq.
  destruct (translate_loop_spec env (py_split text) [] 0%Q self) as (Hloop & _ & _).
  rewrite Hloop. cbn [fst snd]. by rewrite app_nil_r.
Qed.

(** X10. A translation calls the engine once per word.  It loads the artifacts
    at most once: never on a loader that is initialised, once (when there
    is a word) on one whose artifacts load, which is then READY; when the
    artifacts do not load, the loading is tried again for every word and the
    loader stays uninitialised. *)
Theorem translate_text_loads (env : Env) (text : str) (self : ModelLoader) :
  let r := translate_text env text self in
  let n := length (py_split text) in
  engine_calls r.1.2 = n ∧
  match self with
  | Ready a => loads r.1.2 = 0 ∧ r.2 = Ready a
  | Uninitialized =>
      match artifacts env with
      | Ok a => loads r.1.2 = Nat.min 1 n ∧
                r.2 = (if decide (n = 0) then Uninitialized else Ready a)
      | Raise _ => loads r.1.2 = n ∧ r.2 = Uninitialized
      end
  end.
Proof.
  cbv zeta. destruct (translate_text_run env text self) as [-> ->].
  destruct (translate_loop_spec env (py_split text) [] 0%Q self) as (_ & _ & Hcalls).
  destruct (translate_loop_events env (py_split text) [] 0%Q self)
    as (Hself & Hloads & _).
  split; [done|]. rewrite Hself, Hloads. unfold load_count, loader_after.
  destruct self as [|a]; cbn [engine_assets].
  - destruct (artifacts env) as [a|e]; (split; [done|]);
      destruct (py_split text); by cbn.
  - split; [done|]. by destruct (decide _).
Qed.

(** X11. A translation of [n] words makes at most [n * (max_khm_len + 10)] forward
    passes of the model, and none when the artifacts do not load. *)
Theorem translate_text_forward_budget (env : Env) (text : str) (self : ModelLoader) :
  let fp := forward_passes (translate_text env text self).1.2 in
  match engine_assets env self with
  | Some a => fp ≤ length (py_split text) * (max_khm_len a + 10)
  | None => fp = 0
  end.
Proof.
  cbv zeta. destruct (translate_text_run env text self) as [-> _].
  destruct (translate_loop_events env (py_split text) [] 0%Q self) as (_ & _ & Hfw).
  unfold decode_budget in Hfw.
  destruct (engine_assets env self); [done|lia].
Qed.

Lemma Qsum_zeros (xs : list Q) : Forall (λ x, x = 0%Q) xs → (Qsum xs == 0)%Q.
Proof.
  induction 1 as [|x xs -> _ IH]; unfold Qsum in *; cbn [foldr]; [reflexivity|].
  rewrite IH. reflexivity.
Qed.

(** X12. When the artifacts do not load, a translation still returns: every word
    is echoed between brackets with confidence 0, the translation is the
    concatenation of these echoes, the average confidence is 0, and the
    model is never run. *)
Theorem translate_text_unloadable (env : Env) (text : str) (e : exn) :
  artifacts env = Raise e →
  let words := py_split text in
  ∃ res,
    translate_text env text Uninitialized
    = ((Ok res, (translate_text env text Uninitialized).1.2), Uninitialized) ∧
    translation res = concat (bracket <$> words) ∧
    word_translations res = (λ w, word_entry w (bracket w, 0%Q)) <$> words ∧
    average_confidence res = 0%Q ∧
    word_count res = length words ∧
    forward_passes (translate_text env text Uninitialized).1.2 = 0.
Proof.
  intros Hload words.
  assert (∀ w, single_word_decode env Uninitialized w = (bracket w, 0%Q)) as Hdec.
  { intros w. rewrite single_word_decode_eq. cbn [engine_assets]. by rewrite Hload. }
  assert (single_word_decode env Uninitialized <$> words
          = (λ w, (bracket w, 0%Q)) <$> words) as Hmap.
  { apply list_fmap_ext. intros _ w _. apply Hdec. }
  assert ((translate_text env text Uninitialized).2 = Uninitialized) as Hself.
  { destruct (translate_text_run env text Uninitialized) as [_ ->].
    destruct (translate_loop_events env (py_split text) [] 0%Q Uninitialized)
      as (-> & _ & _).
    unfold loader_after. cbn [engine_assets]. rewrite Hload.
    by destruct (decide _). }
  assert (forward_passes (translate_text env text Uninitialized).1.2 = 0) as Hfw.
  { destruct (translate_text_run env text Uninitialized) as [-> _].
    destruct (translate_loop_events env (py_split text) [] 0%Q Uninitialized)
      as (_ & _ & H).
    unfold decode_budget in H. cbn [engine_assets] in H. rewrite Hload in H. lia. }
  destruct (decide (words = [])) as [Hnil|Hwords].
  { unfold translate_text. fold words. rewrite Hnil, decide_True by done.
    eexists. split; [reflexivity|]. by cbn. }
  pose proof (translate_text_value env text Uninitialized Hwords) as Hval.
  cbv zeta in Hval. fold words in Hval. rewrite Hmap in Hval.
  eexists. split.
  { destruct (translate_text env text Uninitialized) as [[v evs] s'].
    cbn [fst snd] in *. by rewrite Hval, Hself. }
  cbn [translation word_translations average_confidence word_count].
  assert (zip_with word_entry words ((λ w, (bracket w, 0%Q)) <$> words)
          = (λ w, word_entry w (bracket w, 0%Q)) <$> words) as Hzip.
  { clear. induction words as [|w ws IH]; [done|].
    rewrite fmap_cons. cbn [zip_with]. rewrite IH. by rewrite fmap_cons. }
  rewrite Hzip. repeat split; try done.
  - unfold py_join. rewrite <- list_fmap_compose. done.
  - rewrite length_fmap.
    assert (((λ w, (bracket w, 0%Q)) <$> words).*2 ≠ []) as Hne.
    { destruct words; done. }
    replace (length words) with (length (((λ w, (bracket w, 0%Q)) <$> words).*2))
      by (by rewrite !length_fmap).
    rewrite (round2_proper _ 0 ); [done|].
    rewrite (fold_left_mean _ Hne). unfold np_mean.
    rewrite Qsum_zeros; [reflexivity|].
    apply Forall_fmap, Forall_fmap, Forall_forall. by intros.
Qed.

(** ** [sanitize_user_input] *)

Lemma split_from_word (w cur s : str) :
  forallb (λ c, negb (py_isspace c)) w = true →
  split_from cur (w ++ s) = split_from (reverse w ++ cur) s.
Proof.
  revert cur. induction w as [|c w IH]; intros cur Hw; [done|].
  cbn in Hw. apply andb_true_iff in Hw as [Hc Hw].
  apply negb_true_iff in Hc. cbn [app split_from]. rewrite Hc.
  rewrite IH by done. by rewrite reverse_cons, <- app_assoc.
Qed.

(** Splitting what was joined with single spaces gives the words back. *)
Lemma py_split_join (words : list str) :
  Forall (λ w, w ≠ [] ∧ forallb (λ c, negb (py_isspace c)) w = true) words →
  py_split (str_join (lit " ") words) = words.
Proof.
  unfold py_split. change (lit " ") with [32%N].
  induction 1 as [|w ws [Hne Hw] Hws IH]; [done|].
  assert (reverse w ≠ []) as Hrev.
  { intros H. apply (f_equal reverse) in H. by rewrite reverse_involutive in H. }
  destruct ws as [|w2 ws]; cbn [str_join].
  - rewrite <- (app_nil_r w), split_from_word by done. rewrite !app_nil_r.
    cbn [split_from]. by rewrite decide_False, reverse_involutive.
  - rewrite split_from_word by done. rewrite app_nil_r.
    cbn [app split_from].
    change (py_isspace 32) with true. cbn match.
    rewrite decide_False, reverse_involutive by done. f_equal. exact IH.
Qed.

Lemma html_escape_char_safe (c : N) :
  Forall (λ d, d ≠ 60%N ∧ d ≠ 62%N ∧ d ≠ 34%N ∧ d ≠ 39%N ∧
               (py_isspace d = true → py_isspace c = true ∧ d = c))
         (html_escape_char c).
Proof.
  unfold html_escape_char.
  repeat (case_decide; [subst; vm_compute; by repeat constructor|]).
  constructor; [|constructor]. by repeat split.
Qed.

Lemma str_join_Forall (P : N → Prop) (sep : str) (parts : list str) :
  Forall P sep → Forall (Forall P) parts → Forall P (str_join sep parts).
Proof.
  intros Hsep. induction 1 as [|w ws Hw Hws IH]; [constructor|].
  destruct ws as [|w2 ws]; cbn [str_join]; [done|].
  apply Forall_app. split; [done|]. apply Forall_app. by split.
Qed.

Lemma py_slice_upto {A} (l : list A) (z : Z) :
  ∃ n, py_slice l None (Some z) = take n l ∧ (0 ≤ z → Z.of_nat n ≤ z)%Z.
Proof.
  unfold py_slice, slice_lo, slice_hi, slice_index. cbn [from_option].
  destruct (decide (0 < 0)%Z) as [?|_]; [lia|].
  replace (Z.to_nat (0 `min` Z.of_nat (length l))) with 0 by lia.
  rewrite drop_0, Nat.sub_0_r. eexists. split; [reflexivity|].
  intros Hz. destruct (decide (z < 0)%Z); lia.
Qed.

Lemma html_escape_safe (text : str) :
  Forall (λ d, d ≠ 60%N ∧ d ≠ 62%N ∧ d ≠ 34%N ∧ d ≠ 39%N) (html_escape text).
Proof.
  unfold html_escape. induction text as [|c text IH]; [constructor|].
  cbn [mbind list_bind]. apply Forall_app. split; [|exact IH].
  eapply Forall_impl; [apply html_escape_char_safe|]. cbn. tauto.
Qed.

Lemma py_split_elements (P : N → Prop) (s : str) :
  Forall P s → Forall (Forall P) (py_split s).
Proof.
  intros Hs. apply Forall_forall. intros w Hw. apply Forall_forall. intros c Hc.
  rewrite Forall_forall in Hs. apply Hs.
  assert (c ∈ concat (py_split s)) as Hin.
  { apply list_elem_of_In, in_concat. exists w. by rewrite <- !list_elem_of_In. }
  unfold py_split in Hin. rewrite split_from_concat in Hin.
  cbn in Hin. by apply list_elem_of_filter in Hin as [_ ?].
Qed.

(** X13. [sanitize_user_input] never returns one of the characters [<], [>],
    the double quote or the apostrophe, and every whitespace it returns is a
    single space (U+0020).  With a [max_length] that is not negative the
    result has at most [max_length] code points.  When nothing is cut off,
    the result splits into the same words as the escaped text. *)
Theorem sanitize_user_input_safe (text : str) (max_length : Z) :
  let out := sanitize_user_input text max_length in
  Forall (λ c, c ≠ 60%N ∧ c ≠ 62%N ∧ c ≠ 34%N ∧ c ≠ 39%N ∧
               (py_isspace c = true → c = 32%N)) out ∧
  ((0 ≤ max_length)%Z → (Z.of_nat (length out) ≤ max_length)%Z) ∧
  ((Z.of_nat (length (str_join (lit " ") (py_split (html_escape text)))) ≤ max_length)%Z →
   py_split out = py_split (html_escape text)).
Proof.
  cbv zeta. unfold sanitize_user_input.
  set (joined := str_join (lit " ") (py_split (html_escape text))).
  assert (Forall (λ c, c ≠ 60%N ∧ c ≠ 62%N ∧ c ≠ 34%N ∧ c ≠ 39%N ∧
                       (py_isspace c = true → c = 32%N)) joined) as Hjoined.
  { apply str_join_Forall; [by repeat constructor|].
    pose proof (split_from_words [] (html_escape text) eq_refl) as Hwords.
    fold (py_split (html_escape text)) in Hwords.
    pose proof (py_split_elements _ _ (html_escape_safe text)) as Hsafe.
    rewrite Forall_forall in Hwords, Hsafe. apply Forall_forall. intros w Hw.
    destruct (Hwords w Hw) as [_ Hns]. specialize (Hsafe w Hw).
    rewrite forallb_forall in Hns. rewrite Forall_forall in Hsafe |- *.
    intros c Hc. destruct (Hsafe c Hc) as (?&?&?&?). repeat split; try done.
    intros Hsp. apply list_elem_of_In, Hns in Hc. by rewrite Hsp in Hc. }
  destruct (decide (max_length < Z.of_nat (length joined))%Z) as [Hlong|Hshort].
  - destruct (py_slice_upto joined max_length) as (n & -> & Hn).
    split; [by apply Forall_take|]. split; [|lia].
    intros Hz. rewrite length_take. specialize (Hn Hz). lia.
  - split; [exact Hjoined|]. split; [lia|]. intros _.
    apply py_split_join. by apply split_from_words.
Qed.

(** ** Instances *)

Lemma greedy_step_selects_maximum_witness :
  (greedy_body toy_assets [[2; 3; 0; 0]%Z] 2 0 ([1%Z], [])).1
  = Ok (Continue, ([1; 3]%Z, [9 # 10]%Q)) ∧
  ∃ preds ti next,
    model_predict toy_assets [[2; 3; 0; 0]%Z]
      [pad_spec [1%Z] (max_khm_len toy_assets + 1) true] = Ok preds ∧
    np_axis_index (Z.of_nat (length [1%Z]) - 1) (shape1 preds) = Ok ti ∧
    next < shape2 preds ∧
    [1; 3]%Z = [1%Z] ++ [Z.of_nat next] ∧
    [9 # 10]%Q = [] ++ [item preds 0 ti next] ∧
    (∀ k, k < shape2 preds → (item preds 0 ti k <= item preds 0 ti next)%Q) ∧
    (∀ k, k < next → (item preds 0 ti k < item preds 0 ti next)%Q).
Proof.
  assert ((greedy_body toy_assets [[2; 3; 0; 0]%Z] 2 0 ([1%Z], [])).1
          = Ok (Continue, ([1; 3]%Z, [9 # 10]%Q))) as Hstep
    by (vm_compute; reflexivity).
  split; [exact Hstep|].
  apply (greedy_step_selects_maximum toy_assets [[2; 3; 0; 0]%Z] 2 0
           [1%Z] [1; 3]%Z [] [9 # 10]%Q Continue Hstep).
  discriminate.
Defined.

Lemma greedy_loop_end_token_last_witness :
  (greedy_loop toy_assets [[2; 3; 0; 0]%Z] 1 2).1
  = Ok ([1; 3; 4; 2]%Z, [9 # 10; 4 # 5; 1]%Q) ∧
  ∃ toks,
    [1; 3; 4; 2]%Z = 1%Z :: toks ∧
    length toks ≤ max_khm_len toy_assets + 10 ∧
    (2%Z ∉ take (length toks - 1) toks) ∧
    (∀ iw : gmap Z (list N),
       decoded_spec iw 2 [1; 3; 4; 2]%Z
       = concat ((λ idx, default [] (iw !! idx))
                   <$> (if decide (last toks = Some 2%Z)
                        then take (length toks - 1) toks else toks))).
Proof.
  assert ((greedy_loop toy_assets [[2; 3; 0; 0]%Z] 1 2).1
          = Ok ([1; 3; 4; 2]%Z, [9 # 10; 4 # 5; 1]%Q)) as Hloop
    by (vm_compute; reflexivity).
  split; [exact Hloop|].
  apply (greedy_loop_end_token_last toy_assets [[2; 3; 0; 0]%Z] 1 2
           [1; 3; 4; 2]%Z [9 # 10; 4 # 5; 1]%Q Hloop).
Defined.

Lemma translate_text_unloadable_witness :
  artifacts missing_env = Raise FileNotFoundError ∧
  ∃ res,
    translate_text missing_env (lit "ab cd") Uninitialized
    = ((Ok res, (translate_text missing_env (lit "ab cd") Uninitialized).1.2),
       Uninitialized) ∧
    translation res = concat (bracket <$> py_split (lit "ab cd")) ∧
    word_translations res
    = (λ w, word_entry w (bracket w, 0%Q)) <$> py_split (lit "ab cd") ∧
    average_confidence res = 0%Q ∧
    word_count res = length (py_split (lit "ab cd")) ∧
    forward_passes (translate_text missing_env (lit "ab cd") Uninitialized).1.2 = 0.
Proof.
  split; [reflexivity|].
  apply (translate_text_unloadable missing_env (lit "ab cd") FileNotFoundError).
  reflexivity.
Defined.

(** ** The database layer *)

Ltac st_cbv :=
  cbv [mbind ST_bind mret ST_ret st_try st_finally st_raise st_get in_frame
       get_frame set_frame with_frame call set_pool sleep max_retries retry_delay];
  cbn [fst snd server _pool conn cursor app Nat.ltb Nat.leb Nat.sub seq
       initialize_pool_loop andb].

Ltac st_step :=
  st_cbv;
  repeat (progress (rewrite ?(bool_decide_true (@None nat = None)) by done;
                    try rewrite bool_decide_false by done);
          st_cbv).

Ltac driver_call :=
  match goal with
  | |- context [SimpleConnectionPool ?drv ?d] =>
      destruct (SimpleConnectionPool drv d) as [[?p|?e] ?d]
  | |- context [pool_getconn ?drv ?p ?d] =>
      destruct (pool_getconn drv p d) as [[?c|?e] ?d]
  | |- context [conn_cursor ?drv ?c ?d] =>
      destruct (conn_cursor drv c d) as [[?cu|?e] ?d]
  | |- context [cursor_execute ?drv ?cu ?q ?ps ?d] =>
      destruct (cursor_execute drv cu q ps d) as [[[]|?e] ?d]
  | |- context [cursor_fetchone ?drv ?cu ?d] =>
      destruct (cursor_fetchone drv cu d) as [[?res|?e] ?d]
  | |- context [cursor_fetchall ?drv ?cu ?d] =>
      destruct (cursor_fetchall drv cu d) as [[?res|?e] ?d]
  | |- context [conn_commit ?drv ?c ?d] =>
      destruct (conn_commit drv c d) as [[[]|?e] ?d]
  | |- context [conn_rollback ?drv ?c ?d] =>
      destruct (conn_rollback drv c d) as [[[]|?e] ?d]
  | |- context [cursor_close ?drv ?cu ?d] =>
      destruct (cursor_close drv cu d) as [[[]|?e] ?d]
  | |- context [pool_putconn ?drv ?p ?c ?d] =>
      destruct (pool_putconn drv p c d) as [[[]|?e] ?d]
  end; st_step.

Lemma setup_only (ev : db_event) (evs : list db_event) :
  ev ∈ List.filter is_setup evs → is_setup ev = true.
Proof. rewrite list_elem_of_In, filter_In. tauto. Qed.

Lemma filter_setup_other (f : db_event → bool) (evs : list db_event) :
  (∀ ev, is_setup ev = true → f ev = false) →
  List.filter f (List.filter is_setup evs) = [].
Proof.
  intros Hf. induction evs as [|ev evs IH]; [done|]. cbn [List.filter].
  destruct (is_setup ev) eqn:Hev; [|done]. cbn [List.filter]. by rewrite Hf, IH.
Qed.

(** Membership in a trace that is known up to its set-up events. *)
Ltac in_trace H :=
  first
    [ apply elem_of_app in H as [H|H]; [in_trace H|in_trace H]
    | apply elem_of_cons in H as [H|H]; [simplify_eq|in_trace H]
    | apply elem_of_nil in H; destruct H
    | apply setup_only in H; discriminate H
    | idtac ].

Ltac count_other :=
  rewrite ?app_nil_r, <- ?app_assoc, ?List.filter_app, filter_setup_other
    by (by intros []);
  cbn; lia.

Ltac trace_has :=
  rewrite <- ?app_assoc; cbn [app];
  try (apply elem_of_app; right);
  solve [repeat first [apply list_elem_of_here | apply list_elem_of_further]].

(** X14. [initialize_pool] never raises.  It tries to create the pool at most
    [max_retries] times and sleeps [retry_delay] seconds after every failed
    attempt but the last one; it answers [False] exactly when all the
    attempts failed, and the pool is then still missing.  With a pool, or
    without a [DATABASE_URL], it does nothing and answers [True]: also when
    there is no pool at all. *)
Theorem initialize_pool_retries {D} (drv : Driver D) (cls : Database D) :
  let r := initialize_pool drv cls in
  ∃ b, r.1.1 = Ok b ∧
       Forall (λ ev, is_setup ev = true) r.1.2 ∧
       connects r.1.2 ≤ max_retries ∧
       slept r.1.2 = (retry_delay * (Z.of_nat (connects r.1.2) - 1) `max` 0)%Z ∧
       (b = false ↔ connects r.1.2 = max_retries ∧ _pool r.2 = None) ∧
       (_pool cls ≠ None ∨ DATABASE_URL drv = [] → r.1.2 = [] ∧ r.2 = cls) ∧
       (b = true ∧ _pool r.2 = None ↔ _pool cls = None ∧ DATABASE_URL drv = []) ∧
       (∀ p, _pool cls = None → (_pool r.2 = Some p ↔ DbConnect (Ok p) ∈ r.1.2)).
Proof.
  unfold initialize_pool.
  destruct (bool_decide (DATABASE_URL drv ≠ [])) eqn:Hurl;
    [apply bool_decide_eq_true in Hurl|apply bool_decide_eq_false in Hurl];
    destruct cls as [[p0|] d]; st_step.
  - cbn. exists true. repeat split; try done; try lia; intuition congruence.
  - repeat driver_call.
    all: cbn; eexists; split; [reflexivity|].
    all: repeat split; try done; try lia; try (by repeat constructor).
    all: try (intuition congruence).
    all: try (intros [= <-]; rewrite !elem_of_cons; tauto).
    all: intros Hin; in_trace Hin; done.
  - cbn. exists true. repeat split; try done; try lia; intuition congruence.
  - cbn. exists true. assert (DATABASE_URL drv = []) by (by apply dec_stable).
    repeat split; try done; try lia; try (intuition congruence).
    intros H'. in_trace H'.
Qed.

(** What [get_connection] does: it sets the pool up when there is none,
    then asks the pool for a connection. *)
Lemma get_connection_run {D} (drv : Driver D) (cls : Database D) :
  let r := get_connection drv cls in
  let pre := List.filter is_setup r.1.2 in
  (_pool cls ≠ None → pre = []) ∧
  match r.1.1 with
  | Ok (Some c) => ∃ p, _pool r.2 = Some p ∧ r.1.2 = pre ++ [DbGetconn p (Ok c)]
  | Ok None => _pool r.2 = None ∧ r.1.2 = pre
  | Raise e => ∃ p, _pool r.2 = Some p ∧ r.1.2 = pre ++ [DbGetconn p (Raise e)]
  end.
Proof.
  destruct cls as [[p0|] d]; unfold get_connection, get_pool, initialize_pool; st_step.
  - driver_call; cbn; eauto.
  - destruct (bool_decide (DATABASE_URL drv ≠ [])) eqn:Hurl; st_step.
    + repeat driver_call; cbn; (split; [done|eauto]).
    + cbn. eauto.
Qed.

(** [return_connection] when there is a pool: one [putconn], whose exception
    is swallowed. *)
Lemma return_connection_run {D} (drv : Driver D) (p c : nat) (d : D) :
  return_connection drv (Some c) {| _pool := Some p; server := d |}
  = let '(out, d') := pool_putconn drv p c d in
    (Ok tt, [DbPutconn p c out], {| _pool := Some p; server := d' |}).
Proof.
  unfold return_connection, get_pool. st_step. by destruct (pool_putconn drv p c d) as [[[]|e] d'].
Qed.

Ltac query_call :=
  match goal with
  | |- context [pool_getconn ?drv ?p ?d] =>
      destruct (pool_getconn drv p d) as [[?c|?e] ?d]
  | |- context [conn_cursor ?drv ?c ?d] =>
      destruct (conn_cursor drv c d) as [[?cu|?e] ?d]
  | |- context [cursor_execute ?drv ?cu ?q ?ps ?d] =>
      destruct (cursor_execute drv cu q ps d) as [[[]|?e] ?d]
  | |- context [cursor_fetchone ?drv ?cu ?d] =>
      destruct (cursor_fetchone drv cu d) as [[?res|?e] ?d]
  | |- context [cursor_fetchall ?drv ?cu ?d] =>
      destruct (cursor_fetchall drv cu d) as [[?res|?e] ?d]
  | |- context [conn_commit ?drv ?c ?d] =>
      destruct (conn_commit drv c d) as [[[]|?e] ?d]
  | |- context [conn_rollback ?drv ?c ?d] =>
      destruct (conn_rollback drv c d) as [[[]|?e] ?d]
  | |- context [cursor_close ?drv ?cu ?d] =>
      destruct (cursor_close drv cu d) as [[[]|?e] ?d]
  | |- context [pool_putconn ?drv ?p ?c ?d] =>
      destruct (pool_putconn drv p c d) as [[[]|?e] ?d]
  end; st_cbv; rewrite ?return_connection_run; st_cbv.

(** Running [execute_query]: the three outcomes of [get_connection], then
    every outcome of every call to the driver. *)
Ltac run_query drv cls :=
  unfold execute_query; st_cbv;
  let Hconn := fresh "Hconn" in
  let Hpre := fresh "Hpre" in
  pose proof (get_connection_run drv cls) as [Hpre Hconn]; cbv zeta in Hpre, Hconn;
  let c := fresh "c" in let e := fresh "e" in let evs := fresh "evs" in
  let pl := fresh "pl" in let d := fresh "d" in
  destruct (get_connection drv cls) as [[[[c|]|e] evs] [pl d]];
  cbn [fst snd _pool] in Hconn, Hpre;
  [ destruct Hconn as (?p & -> & ->) | destruct Hconn as (-> & ->)
  | destruct Hconn as (?p & -> & ->) ];
  st_cbv; rewrite ?return_connection_run; st_cbv.

(** X15. [execute_query] asks the pool for at most one connection.  A
    connection it obtained is given back to the pool exactly when no
    [cursor.close()] raised: the [finally] block closes the cursor first, and
    an exception there skips [return_connection].  Every cursor it created
    is closed. *)
Theorem execute_query_releases {D} (drv : Driver D) (query : str)
    (params : option (list sqlval)) (fetch_one fetch_all : bool) (cls : Database D) :
  let evs := (execute_query drv query params fetch_one fetch_all cls).1.2 in
  (∀ p c, DbGetconn p (Ok c) ∈ evs →
          ((∃ o, DbPutconn p c o ∈ evs) ↔ (∀ cu e, DbClose cu (Raise e) ∉ evs))) ∧
  (∀ c cu, DbCursor c (Ok cu) ∈ evs → ∃ o, DbClose cu o ∈ evs) ∧
  length (List.filter is_getconn evs) ≤ 1.
Proof.
  cbv zeta. run_query drv cls.
  - destruct fetch_one, fetch_all; repeat query_call.
    all: split; [|split]; [| |count_other].
    all: intros ? ? H; in_trace H.
    all: try (eexists; trace_has).
    all: split;
      [ intros [o Ho] cu' e' Hc; in_trace Ho; in_trace Hc
      | intros Hno;
        first [ eexists; trace_has | exfalso; eapply Hno; trace_has ] ].
  - split; [|split]; try (intros ? ? H; in_trace H). count_other.
  - split; [|split]; try (intros ? ? H; in_trace H). count_other.
Qed.

Lemma existsb_setup_other (f : db_event → bool) (evs : list db_event) :
  (∀ ev, is_setup ev = true → f ev = false) →
  existsb f (List.filter is_setup evs) = false.
Proof.
  intros Hf. induction evs as [|ev evs IH]; [done|]. cbn [List.filter].
  destruct (is_setup ev) eqn:Hev; [|done]. cbn [existsb]. by rewrite Hf, IH.
Qed.

Ltac exists_other :=
  rewrite ?app_nil_r, <- ?app_assoc, ?existsb_app, existsb_setup_other
    by (by intros []);
  cbn.

Ltac exists_other_in H :=
  rewrite ?app_nil_r, <- ?app_assoc, ?existsb_app, existsb_setup_other in H
    by (by intros []);
  cbn in H.

(** X16. [execute_query] returns a result only after a successful commit, and
    the result is the one its flags select ([fetch_one] before [fetch_all]).
    It rolls back exactly when a step of the [try] block after the connection
    was obtained raised (cursor, execute, fetch or commit); a call that
    rolled back raises and was not committed.  A call whose commit succeeded
    raises only with the exception of [cursor.close()]. *)
Theorem execute_query_commit_or_rollback {D} (drv : Driver D) (query : str)
    (params : option (list sqlval)) (fetch_one fetch_all : bool) (cls : Database D) :
  let r := execute_query drv query params fetch_one fetch_all cls in
  let evs := r.1.2 in
  (∀ res, r.1.1 = Ok res →
     (∃ c, DbCommit c (Ok tt) ∈ evs) ∧
     match res with
     | FetchedOne _ => fetch_one = true
     | FetchedAll _ => fetch_one = false ∧ fetch_all = true
     | Rowcount _ => fetch_one = false ∧ fetch_all = false
     end) ∧
  ((∃ c o, DbRollback c o ∈ evs) ↔ existsb failed_in_try evs = true) ∧
  (∀ c o, DbRollback c o ∈ evs →
     (∃ e, r.1.1 = Raise e) ∧ DbCommit c (Ok tt) ∉ evs) ∧
  (∀ c e, DbCommit c (Ok tt) ∈ evs → r.1.1 = Raise e →
     ∃ cu, DbClose cu (Raise e) ∈ evs).
Proof.
  cbv zeta. run_query drv cls;
    [destruct fetch_one, fetch_all; repeat query_call| |].
  all: split; [|split; [|split]].
  all: try (intros ? Hres; simplify_eq; (split; [eexists; trace_has|by cbn])).
  all: try (split;
    [ intros (c' & o & H); in_trace H; exists_other; reflexivity
    | intros Hex; exists_other_in Hex;
      first [ discriminate Hex | do 2 eexists; trace_has ] ]).
  all: try (intros c' o H; in_trace H;
            (split; [eexists; reflexivity|intros Hc; in_trace Hc])).
  all: intros c' e' H Hres; in_trace H; simplify_eq; eexists; trace_has.
Qed.

(** X21. [check_connection] never raises.  It answers [True] exactly when
    the probe ran to the end, that is when its cursor was closed without an
    exception; a cursor is left open when the probe fails before.  A
    connection it obtained is always given back to the pool, and it neither
    commits nor rolls back.  Without a [DATABASE_URL] it answers [False]
    and asks nothing of the driver, also when there is a pool. *)
Theorem check_connection_total {D} (drv : Driver D) (cls : Database D) :
  let r := check_connection drv cls in
  let evs := r.1.2 in
  ∃ b, r.1.1 = Ok b ∧
       (b = true ↔ ∃ cu, DbClose cu (Ok tt) ∈ evs) ∧
       (∀ p c, DbGetconn p (Ok c) ∈ evs → ∃ o, DbPutconn p c o ∈ evs) ∧
       (∀ c cu, DbCursor c (Ok cu) ∈ evs →
          ((∃ o, DbClose cu o ∈ evs) ↔ ∃ res, DbFetchone cu (Ok res) ∈ evs)) ∧
       existsb is_transaction evs = false ∧
       (DATABASE_URL drv = [] → r = (Ok false, [], cls)).
Proof.
  cbv zeta. unfold check_connection. case_bool_decide as Hurl.
  { exists false. cbn. repeat split; try done.
    all: try (intros [? Hin]; in_trace Hin).
    all: intros ? ? Hin; in_trace Hin. }
  st_cbv.
  pose proof (get_connection_run drv cls) as [Hpre Hconn]; cbv zeta in Hpre, Hconn.
  destruct (get_connection drv cls) as [[[[c|]|e] evs] [pl d]];
    cbn [fst snd _pool] in Hconn, Hpre;
    [ destruct Hconn as (p & -> & ->) | destruct Hconn as (-> & ->)
    | destruct Hconn as (p & -> & ->) ];
    st_cbv; rewrite ?return_connection_run; st_cbv;
    [repeat query_call| |].
  all: eexists; split; [reflexivity|].
  all: split; [|split; [|split; [|split; [exists_other; reflexivity|done]]]].
  all: try (split; [ intros Hb; first [discriminate Hb | eexists; trace_has]
                   | intros [cu' Hin]; in_trace Hin; done ]).
  all: try (intros ? ? Hin; in_trace Hin; eexists; trace_has).
  all: intros ? ? Hin; in_trace Hin;
       (split; [ intros [o Ho]; first [ eexists; trace_has | in_trace Ho ]
               | intros [res' Hr]; first [ eexists; trace_has | in_trace Hr ] ]).
Qed.

(** The statement that [execute_query] runs, and what it hands back. *)
Lemma execute_query_statement {D} (drv : Driver D) (query : str)
    (params : option (list sqlval)) (fetch_one fetch_all : bool) (cls : Database D) :
  let r := execute_query drv query params fetch_one fetch_all cls in
  let evs := r.1.2 in
  (∀ cu q ps o, DbExecute cu q ps o ∈ evs →
     q = query ∧ ps = Some (default [] params)) ∧
  length (List.filter is_execute evs) ≤ 1 ∧
  (∀ res, r.1.1 = Ok res → ∃ c, DbCommit c (Ok tt) ∈ evs) ∧
  (∀ rows, r.1.1 = Ok (FetchedAll rows) → ∃ cu, DbFetchall cu (Ok rows) ∈ evs) ∧
  (∀ row, r.1.1 = Ok (FetchedOne row) → ∃ cu, DbFetchone cu (Ok row) ∈ evs).
Proof.
  cbv zeta. run_query drv cls;
    [destruct fetch_one, fetch_all; repeat query_call| |].
  all: split; [|split; [|split; [|split]]]; [| count_other | | |].
  all: try (intros ? ? ? ? Hin; in_trace Hin; done).
  all: intros ? Hres; simplify_eq; eexists; trace_has.
Qed.

Lemma save_prediction_run {D} (drv : Driver D) (prediction : Prediction.t)
    (cls : Database D) :
  save_prediction drv prediction cls
  = let '(_, evs, cls') :=
      execute_query drv save_prediction_query
        (Some [SqlStr (Prediction.id prediction);
               SqlStr (Prediction.input_text prediction);
               SqlStr (Prediction.output_text prediction);
               SqlFloat (Prediction.confidence prediction);
               sql_optional (Prediction.user_ip prediction);
               sql_optional (Prediction.user_agent prediction);
               SqlTimestamp (Prediction.timestamp prediction)])
        true false cls in
    (Ok (Prediction.id prediction), evs, cls').
Proof.
  unfold save_prediction. st_cbv.
  destruct (execute_query _ _ _ _ _ _) as [[[res|e] evs] cls']; [|by rewrite app_nil_r].
  destruct (truthy res); by rewrite app_nil_r.
Qed.

(** X17. [save_prediction] never raises and always answers [prediction.id],
    whether or not the row was stored.  It runs at most one statement: the
    [INSERT], with the seven fields of the prediction in the order of the
    columns. *)
Theorem save_prediction_returns_id {D} (drv : Driver D) (prediction : Prediction.t)
    (cls : Database D) :
  let r := save_prediction drv prediction cls in
  r.1.1 = Ok (Prediction.id prediction) ∧
  (∀ cu q ps o, DbExecute cu q ps o ∈ r.1.2 →
     q = save_prediction_query ∧
     ps = Some [SqlStr (Prediction.id prediction);
                SqlStr (Prediction.input_text prediction);
                SqlStr (Prediction.output_text prediction);
                SqlFloat (Prediction.confidence prediction);
                sql_optional (Prediction.user_ip prediction);
                sql_optional (Prediction.user_agent prediction);
                SqlTimestamp (Prediction.timestamp prediction)]) ∧
  length (List.filter is_execute r.1.2) ≤ 1.
Proof.
  cbv zeta. rewrite save_prediction_run.
  match goal with
  | |- context [execute_query drv ?q ?ps ?f1 ?fa cls] =>
      pose proof (execute_query_statement drv q ps f1 fa cls) as (Hst & Hone & _);
      destruct (execute_query drv q ps f1 fa cls) as [[out evs] cls']
  end.
  cbn [fst snd] in *. split; [done|]. split; [|done].
  intros cu q ps o Hin. by apply Hst in Hin.
Qed.

(** X18. [get_recent_predictions] never raises.  What it answers is a list: the
    rows that [fetchall()] gave, when the query was committed, and the empty
    list in every other case. *)
Theorem get_recent_predictions_total {D} (drv : Driver D) (limit : Z) (cls : Database D) :
  let r := get_recent_predictions drv limit cls in
  ∃ rows,
    r.1.1 = Ok rows ∧
    (rows ≠ [] →
     ∃ cu c, DbFetchall cu (Ok rows) ∈ r.1.2 ∧ DbCommit c (Ok tt) ∈ r.1.2) ∧
    (∀ cu q ps o, DbExecute cu q ps o ∈ r.1.2 →
       q = recent_predictions_query ∧ ps = Some [SqlInt limit]).
Proof.
  cbv zeta. unfold get_recent_predictions. st_cbv.
  pose proof (execute_query_statement drv recent_predictions_query
                (Some [SqlInt limit]) false true cls) as (Hst & _ & Hcommit & Hrows & _).
  destruct (execute_query _ _ _ _ _ _) as [[[res|e] evs] cls']; cbn [fst snd] in *.
  - rewrite app_nil_r. eexists. split; [reflexivity|]. split; [|exact Hst].
    destruct res as [row|[|r rs]|n]; try done. intros _.
    destruct (Hrows _ eq_refl) as [cu Hcu]. destruct (Hcommit _ eq_refl) as [c Hc].
    eauto.
  - rewrite app_nil_r. exists []. split; [reflexivity|]. split; [done|exact Hst].
Qed.

(** X19. With no [DATABASE_URL] and no pool, nothing is asked of the driver: a
    query raises "No database connection available", a prediction is not
    stored although its id is answered, and there are no recent
    predictions. *)
Theorem no_database_configured {D} (drv : Driver D) (cls : Database D)
    (query : str) (params : option (list sqlval)) (fetch_one fetch_all : bool)
    (prediction : Prediction.t) (limit : Z) :
  DATABASE_URL drv = [] →
  _pool cls = None →
  execute_query drv query params fetch_one fetch_all cls = (Raise NoConnection, [], cls) ∧
  save_prediction drv prediction cls = (Ok (Prediction.id prediction), [], cls) ∧
  get_recent_predictions drv limit cls = (Ok [], [], cls).
Proof.
  intros Hurl Hpool. destruct cls as [pl d]. cbn in Hpool. subst pl.
  assert (∀ q ps f1 fa,
            execute_query drv q ps f1 fa {| _pool := None; server := d |}
            = (Raise NoConnection, [], {| _pool := None; server := d |})) as Hq.
  { intros. unfold execute_query, get_connection, get_pool, initialize_pool.
    rewrite Hurl. st_step. reflexivity. }
  split; [apply Hq|]. split.
  - rewrite save_prediction_run, Hq. reflexivity.
  - unfold get_recent_predictions. st_cbv. rewrite Hq. reflexivity.
Qed.

(** X20. When the pool cannot be created, storing a prediction still answers its
    id, but only after [max_retries] attempts and two sleeps of
    [retry_delay] seconds; no statement is run, and the pool is still
    missing afterwards, so the next call pays the same again. *)
Theorem database_unreachable {D} (drv : Driver D) (cls : Database D)
    (prediction : Prediction.t) :
  DATABASE_URL drv ≠ [] →
  _pool cls = None →
  (∀ d, ∃ e d', SimpleConnectionPool drv d = (Raise e, d')) →
  let r := save_prediction drv prediction cls in
  r.1.1 = Ok (Prediction.id prediction) ∧
  connects r.1.2 = max_retries ∧
  slept r.1.2 = (retry_delay * (Z.of_nat max_retries - 1))%Z ∧
  Forall (λ ev, is_setup ev = true) r.1.2 ∧
  _pool r.2 = None.
Proof.
  intros Hurl Hpool Hdown. destruct cls as [pl d]. cbn in Hpool. subst pl.
  cbv zeta. rewrite save_prediction_run.
  unfold execute_query, get_connection, get_pool, initialize_pool.
  rewrite (bool_decide_true (DATABASE_URL drv ≠ [])) by done. st_step.
  repeat match goal with
         | |- context [SimpleConnectionPool drv ?d0] =>
             destruct (Hdown d0) as (?e & ?d & ->); st_step
         end.
  cbn. repeat split; by repeat constructor.
Qed.

Lemma no_database_configured_witness :
  DATABASE_URL (offline_driver []) = [] ∧
  _pool {| _pool := None; server := tt |} = None ∧
  save_prediction (offline_driver []) toy_prediction {| _pool := None; server := tt |}
  = (Ok (lit "8ebdf006"), [], {| _pool := None; server := tt |}).
Proof.
  split; [reflexivity|]. split; [reflexivity|].
  apply (no_database_configured (offline_driver []) {| _pool := None; server := tt |}
           [] None false false toy_prediction 10); reflexivity.
Defined.

Lemma database_unreachable_witness :
  DATABASE_URL (offline_driver (lit "postgresql://db")) ≠ [] ∧
  (∀ d, ∃ e d', SimpleConnectionPool (offline_driver (lit "postgresql://db")) d
                = (Raise e, d')) ∧
  slept (save_prediction (offline_driver (lit "postgresql://db")) toy_prediction
           {| _pool := None; server := tt |}).1.2 = 4%Z.
Proof.
  assert (∀ d, ∃ e d', SimpleConnectionPool (offline_driver (lit "postgresql://db")) d
                       = (Raise e, d')) as Hdown
    by (intros []; by exists (OtherError 2), tt).
  split; [done|]. split; [exact Hdown|].
  apply (database_unreachable (offline_driver (lit "postgresql://db"))
           {| _pool := None; server := tt |} toy_prediction); [done|reflexivity|exact Hdown].
Defined.
